(** * Monte Carlo policy evaluation in the wildfire environment

    A shallow embedding of [src/policy_eval/utils.py]: the observation
    adapter [process_observation], the policy loader
    [load_agent_policies], the joint action selection [select_action] and
    the episode runner [run_episodes].

    The environment, the policies, the checkpoint loader and torch are
    third-party collaborators.  They are taken as interfaces; every call
    the runner makes to the environment or to a policy is recorded in a
    trace, so that statements about what is called, in which order and
    with which arguments can be made about the code itself. *)

From Stdlib Require Import ZArith QArith Qcanon Lia.
From stdpp Require Import base option list gmap fin_maps strings pretty numbers.

Local Open Scope Z_scope.
Set Warnings "-clear-no-such-hyp".

(** ** Python values and failures *)

(** The exceptions the modelled code can raise by itself: a missing
    dictionary key, a list index out of range, and [torch.from_numpy]
    applied to something that is not an array. *)
Inductive exn : Type :=
| KeyError (key : string)
| IndexError (index : Z)
| TypeError.

(** Result of running a piece of code: a value, an exception that
    propagates to the caller, or an inner loop ([for t in count()]) that
    has not reached its [break] within the number of iterations
    considered. *)
Inductive outcome (A : Type) : Type :=
| Ok (a : A)
| Raise (e : exn)
| Diverge.
Arguments Ok {A} a.
Arguments Raise {A} e.
Arguments Diverge {A}.

(** [range(n)]: empty for [n <= 0]. *)
Definition range (n : Z) : list Z := seqZ 0 n.

(** [f"{i}"] for an integer [i]. *)
Definition fstr (i : Z) : string := pretty i.

(** [l[i]] on a Python list: negative indices count from the end. *)
Definition py_index {A} (l : list A) (i : Z) : outcome A :=
  let n := Z.of_nat (length l) in
  if bool_decide (0 <= i < n) then
    match l !! Z.to_nat i with Some x => Ok x | None => Raise (IndexError i) end
  else if bool_decide (- n <= i < 0) then
    match l !! Z.to_nat (n + i) with Some x => Ok x | None => Raise (IndexError i) end
  else Raise (IndexError i).

(** [d[k]] on a Python dict. *)
Definition py_getitem {V} (d : gmap string V) (k : string) : outcome V :=
  match d !! k with Some v => Ok v | None => Raise (KeyError k) end.

(** ** Observation records *)

(** The per-agent entry [{"obs": ..., "state": ...}] that the policies
    consume. *)
Record agent_obs (Tensor : Type) : Type := AgentObs {
  ao_obs : Tensor;
  ao_state : Tensor
}.
Arguments AgentObs {Tensor} _ _.
Arguments ao_obs {Tensor} _.
Arguments ao_state {Tensor} _.

(** ** torch *)

Record Torch (ndarray Tensor : Type) : Type := {
  (** [torch.from_numpy(a).to(device)] *)
  from_numpy_to : ndarray -> string -> Tensor;
  (** [torch.tensor(a, dtype=torch.float32).to(device)] *)
  tensor_f32_to : ndarray -> string -> Tensor;
  (** [t.cpu().numpy()] *)
  cpu_numpy : Tensor -> ndarray
}.
Arguments from_numpy_to {ndarray Tensor} _ _ _.
Arguments tensor_f32_to {ndarray Tensor} _ _ _.
Arguments cpu_numpy {ndarray Tensor} _ _.

(** ** The observation adapter on the Python heap

    [process_observation] receives a reference to a dictionary and assigns
    to its keys.  Dictionaries live in a store indexed by locations; a
    dictionary value is either a raw array (what the environment
    delivers) or an already marshaled entry. *)
Module Heap.

Inductive pyval (ndarray Tensor : Type) : Type :=
| VArray (a : ndarray)
| VEntry (e : agent_obs Tensor).
Arguments VArray {ndarray Tensor} a.
Arguments VEntry {ndarray Tensor} e.

Section Adapter.
Context {ndarray Tensor : Type}.
Variable torch : Torch ndarray Tensor.

Local Abbreviation dict := (gmap string (pyval ndarray Tensor)).
Local Abbreviation store := (gmap positive dict).

(** The right-hand side of the assignment in the loop body:
    [{"obs": torch.from_numpy(ma_obs[key]).to(device), "state": state}]. *)
Definition marshal_entry (device : string) (state : Tensor)
    (v : pyval ndarray Tensor) : outcome (pyval ndarray Tensor) :=
  match v with
  | VArray a => Ok (VEntry (AgentObs (from_numpy_to torch a device) state))
  | VEntry _ => Raise TypeError
  end.

(** [for key in ma_obs: ma_obs[key] = ...], over the keys [keys] of the
    dictionary; [st] is the store, [l] the location [ma_obs] refers to.
    Assigning to a key that is present does not change the key set, so
    the iteration visits every key once, whatever the order. *)
Fixpoint process_observation_loop (keys : list string) (l : positive)
    (device : string) (state : Tensor) (st : store) : outcome store :=
  match keys with
  | [] => Ok st
  | key :: keys' =>
      let d := default ∅ (st !! l) in
      match py_getitem d key with
      | Ok v =>
          match marshal_entry device state v with
          | Ok e =>
              process_observation_loop keys' l device state
                (<[l := <[key := e]> d]> st)
          | Raise x => Raise x
          | Diverge => Diverge
          end
      | Raise x => Raise x
      | Diverge => Diverge
      end
  end.

(** [process_observation(ma_obs, device, state)]: returns the reference
    it was given, together with the store after the loop. *)
Definition process_observation (ma_obs : positive) (device : string)
    (state : Tensor) (st : store) : outcome (positive * store) :=
  let keys := (map_to_list (default ∅ (st !! ma_obs))).*1 in
  match process_observation_loop keys ma_obs device state st with
  | Ok st' => Ok (ma_obs, st')
  | Raise x => Raise x
  | Diverge => Diverge
  end.

End Adapter.
End Heap.

(** ** The collaborators

    [world] is the state of everything outside the runner: the simulator
    and whatever the policies keep (recurrent state, random generator).
    Rewards and the discount are exact rationals. *)

Record Environment (world ndarray Action Pos : Type) : Type := {
  (** static attributes [env.num_agents], [env.initial_fire_size],
      [env.agents[0].index] *)
  num_agents : Z;
  initial_fire_size : Z;
  agent0_index : Z;
  (** [env.step(ma_action)]: next observations, rewards, done flag *)
  env_step : gmap string Action -> world ->
             (gmap string ndarray * gmap string Qc * bool) * world;
  (** [env.reset()] is [env_reset None], [env.reset(state=s)] is
      [env_reset (Some s)]; the observations are returned *)
  env_reset : option ndarray -> world -> gmap string ndarray * world;
  (** [env.get_state()] *)
  env_get_state : world -> ndarray * world;
  (** [env.get_state_interpretation(s, print_interpretation=False)[0]] *)
  env_get_state_interpretation : ndarray -> world -> list Pos * world
}.
Arguments num_agents {world ndarray Action Pos} _.
Arguments initial_fire_size {world ndarray Action Pos} _.
Arguments agent0_index {world ndarray Action Pos} _.
Arguments env_step {world ndarray Action Pos} _ _ _.
Arguments env_reset {world ndarray Action Pos} _ _ _.
Arguments env_get_state {world ndarray Action Pos} _ _.
Arguments env_get_state_interpretation {world ndarray Action Pos} _ _ _.

Record Policies (world Tensor Action Policy : Type) : Type := {
  (** [ckpt.trainer.get_policy(name)] on the checkpoint that
      [load_model] returns for the two paths *)
  get_policy : string -> string -> string -> Policy;
  (** [policy.compute_single_action(obs)[0]] is called with [None],
      [policy.compute_single_action(obs, explore=False)[0]] with
      [Some false] *)
  compute_single_action :
    Policy -> agent_obs Tensor -> option bool -> world -> Action * world
}.
Arguments get_policy {world Tensor Action Policy} _ _ _ _.
Arguments compute_single_action {world Tensor Action Policy} _ _ _ _ _.

(** ** Traces *)

(** One entry per call that crosses the boundary, with its arguments and
    what it returned. *)
Inductive event (ndarray Tensor Action Pos Policy : Type) : Type :=
| EvAct (agent : Z) (p : Policy) (o : agent_obs Tensor)
        (explore : option bool) (a : Action)
| EvStep (ma_action : gmap string Action) (next_obs : gmap string ndarray)
         (reward : gmap string Qc) (done : bool)
| EvGetState (s : ndarray)
| EvInterp (s : ndarray) (trees_on_fire : list Pos)
| EvReset (s : option ndarray) (obs : gmap string ndarray).
Arguments EvAct {ndarray Tensor Action Pos Policy} _ _ _ _ _.
Arguments EvStep {ndarray Tensor Action Pos Policy} _ _ _ _.
Arguments EvGetState {ndarray Tensor Action Pos Policy} _.
Arguments EvInterp {ndarray Tensor Action Pos Policy} _ _.
Arguments EvReset {ndarray Tensor Action Pos Policy} _ _.

(** ** The monad of the runner: world passing, exceptions, a trace *)

Definition M (world Ev A : Type) : Type :=
  world -> outcome (A * world * list Ev).

Definition mret' {world Ev A} (a : A) : M world Ev A :=
  fun w => Ok (a, w, []).

Definition mbind' {world Ev A B} (m : M world Ev A) (f : A -> M world Ev B)
    : M world Ev B :=
  fun w =>
    match m w with
    | Ok (a, w1, t1) =>
        match f a w1 with
        | Ok (b, w2, t2) => Ok (b, w2, t1 ++ t2)
        | Raise e => Raise e
        | Diverge => Diverge
        end
    | Raise e => Raise e
    | Diverge => Diverge
    end.

(** A value or exception computed without touching the world. *)
Definition lift {world Ev A} (o : outcome A) : M world Ev A :=
  fun w =>
    match o with
    | Ok a => Ok (a, w, [])
    | Raise e => Raise e
    | Diverge => Diverge
    end.

(** A call to a collaborator, recorded by [ev]. *)
Definition call {world Ev A} (op : world -> A * world) (ev : A -> Ev)
    : M world Ev A :=
  fun w => let '(a, w') := op w in Ok (a, w', [ev a]).

Notation "x <~ m ;; k" := (mbind' m (fun x => k))
  (at level 100, m at next level, right associativity,
   format "'[v' x  <~  m  ;;  '/' k ']'").

Section Runner.
Context {world ndarray Tensor Action Pos Policy : Type}.
Variable torch : Torch ndarray Tensor.
Variable env : Environment world ndarray Action Pos.
Variable pol : Policies world Tensor Action Policy.

Local Abbreviation Ev := (event ndarray Tensor Action Pos Policy).
Local Abbreviation Run := (M world Ev).

(** What the dictionary returned by [process_observation] holds: every
    key of the input, mapped to its marshaled entry. *)
Definition process_observation (ma_obs : gmap string ndarray)
    (device : string) (state : Tensor) : gmap string (agent_obs Tensor) :=
  (fun a => AgentObs (from_numpy_to torch a device) state) <$> ma_obs.

(** [load_agent_policies(model_path, params_path, shared_policy, num_agents)] *)
Definition load_agent_policies (model_path params_path : string)
    (shared_policy : bool) (num_agents : Z) : list Policy :=
  if shared_policy then
    (fun _ => get_policy pol model_path params_path "shared_policy")
      <$> range num_agents
  else
    (fun i => get_policy pol model_path params_path ("policy_" +:+ fstr i))
      <$> range num_agents.

(** One item of the dictionary comprehension of [select_action]:
    the key [f"{i}"] and the action of agent [i]. *)
Definition agent_action (ma_obs : gmap string (agent_obs Tensor))
    (agent_policies : list Policy) (explore : option bool) (i : Z)
    : Run (string * Action) :=
  p <~ lift (py_index agent_policies i) ;;
  o <~ lift (py_getitem ma_obs (fstr i)) ;;
  a <~ call (compute_single_action pol p o explore)
            (EvAct i p o explore) ;;
  mret' (fstr i, a).

(** The comprehension [{f"{i}": ... for i in range(num_agents)}], items
    inserted in the order of [idxs]. *)
Fixpoint action_dict (ma_obs : gmap string (agent_obs Tensor))
    (agent_policies : list Policy) (explore : option bool) (idxs : list Z)
    (action : gmap string Action) : Run (gmap string Action) :=
  match idxs with
  | [] => mret' action
  | i :: idxs' =>
      kv <~ agent_action ma_obs agent_policies explore i ;;
      action_dict ma_obs agent_policies explore idxs' (<[kv.1 := kv.2]> action)
  end.

(** [select_action(ma_obs, agent_policies, num_agents, stochastic_policy)] *)
Definition select_action (ma_obs : gmap string (agent_obs Tensor))
    (agent_policies : list Policy) (num_agents : Z)
    (stochastic_policy : bool) : Run (gmap string Action) :=
  if stochastic_policy then
    action_dict ma_obs agent_policies None (range num_agents) ∅
  else
    action_dict ma_obs agent_policies (Some false) (range num_agents) ∅.

(** The identifier rule of [run_episodes], written twice in the source
    (once per reset mode) with the same text. *)
Definition initial_state_identifier (trees_on_fire : list Pos) : outcome Pos :=
  if bool_decide (initial_fire_size env `mod` 2 = 0) then
    py_index trees_on_fire 0
  else
    py_index trees_on_fire ((initial_fire_size env ^ 2 - 1) `div` 2).

(** The loop [for t in count(): ...] of one episode, started at step
    counter [t] with accumulator [ret]; [fuel] bounds the number of
    iterations looked at. *)
Fixpoint episode_loop (fuel : nat) (gamma : Qc) (device : string)
    (agent_policies : list Policy) (stochastic_policy : bool)
    (t : nat) (ret : Qc) (ma_obs : gmap string (agent_obs Tensor))
    : Run Qc :=
  match fuel with
  | O => fun _ => Diverge
  | S fuel' =>
      ma_action <~ select_action ma_obs agent_policies (num_agents env)
                     stochastic_policy ;;
      sr <~ call (env_step env ma_action)
                 (fun r => EvStep ma_action r.1.1 r.1.2 r.2) ;;
      let '(next_obs, reward, done) := sr in
      r <~ lift (py_getitem reward (fstr (agent0_index env))) ;;
      let ret := (ret + gamma ^ t * r)%Qc in
      if done then mret' ret
      else
        s <~ call (env_get_state env) EvGetState ;;
        let next_state := tensor_f32_to torch s device in
        let ma_obs := process_observation next_obs device next_state in
        episode_loop fuel' gamma device agent_policies stochastic_policy
          (S t) ret ma_obs
  end.

(** The outer loop [for _ in range(num_episodes): ...], [n] episodes to
    go; [ma_obs] and [state] are the variables of that name and
    [episode_returns] the list built so far. *)
Fixpoint episodes_loop (fuel : nat) (n : nat) (gamma : Qc) (device : string)
    (agent_policies : list Policy)
    (stochastic_policy estimate_expected_value : bool)
    (ma_obs : gmap string (agent_obs Tensor)) (state : Tensor)
    (episode_returns : list (Qc * Pos)) : Run (list (Qc * Pos)) :=
  match n with
  | O => mret' episode_returns
  | S n' =>
      ret <~ episode_loop fuel gamma device agent_policies stochastic_policy
               0 0%Qc ma_obs ;;
      if estimate_expected_value then
        trees_on_fire <~ call (env_get_state_interpretation env (cpu_numpy torch state))
                              (EvInterp (cpu_numpy torch state)) ;;
        ident <~ lift (initial_state_identifier trees_on_fire) ;;
        let episode_returns := episode_returns ++ [(ret, ident)] in
        obs <~ call (env_reset env None) (EvReset None) ;;
        s <~ call (env_get_state env) EvGetState ;;
        let state := tensor_f32_to torch s device in
        let ma_obs := process_observation obs device state in
        episodes_loop fuel n' gamma device agent_policies stochastic_policy
          estimate_expected_value ma_obs state episode_returns
      else
        trees_on_fire <~ call (env_get_state_interpretation env (cpu_numpy torch state))
                              (EvInterp (cpu_numpy torch state)) ;;
        ident <~ lift (initial_state_identifier trees_on_fire) ;;
        let episode_returns := episode_returns ++ [(ret, ident)] in
        obs <~ call (env_reset env (Some (cpu_numpy torch state)))
                    (EvReset (Some (cpu_numpy torch state))) ;;
        let ma_obs := process_observation obs device state in
        episodes_loop fuel n' gamma device agent_policies stochastic_policy
          estimate_expected_value ma_obs state episode_returns
  end.

(** [run_episodes(num_episodes, env, gamma, ma_obs, state, device,
    model_path, params_path, shared_policy, stochastic_policy,
    estimate_expected_value)]; [fuel] bounds the steps of each episode. *)
Definition run_episodes (fuel : nat) (num_episodes : Z) (gamma : Qc)
    (ma_obs : gmap string (agent_obs Tensor)) (state : Tensor)
    (device model_path params_path : string)
    (shared_policy stochastic_policy estimate_expected_value : bool)
    : Run (list (Qc * Pos)) :=
  let agent_policies :=
    load_agent_policies model_path params_path shared_policy (num_agents env) in
  episodes_loop fuel (Z.to_nat num_episodes) gamma device agent_policies
    stochastic_policy estimate_expected_value ma_obs state [].

End Runner.

(** The discounted return as the specification writes it:
    the sum over [t] of [gamma^t * r_t], [t] counted from [from]. *)
Fixpoint discounted_from (gamma : Qc) (from : nat) (rs : list Qc) : Qc :=
  match rs with
  | [] => 0%Qc
  | r :: rs' => (gamma ^ from * r + discounted_from gamma (S from) rs')%Qc
  end.

Definition discounted_return (gamma : Qc) (rs : list Qc) : Qc :=
  discounted_from gamma 0 rs.

(** ** Reading a trace *)

Section Traces.
Context {ndarray Tensor Action Pos Policy : Type}.

Local Abbreviation Ev := (event ndarray Tensor Action Pos Policy).

Definition is_reset (e : Ev) : bool :=
  match e with EvReset _ _ => true | _ => false end.

Definition is_step (e : Ev) : bool :=
  match e with EvStep _ _ _ _ => true | _ => false end.

Definition is_get_state (e : Ev) : bool :=
  match e with EvGetState _ => true | _ => false end.

Definition is_act (e : Ev) : bool :=
  match e with EvAct _ _ _ _ _ => true | _ => false end.

(** The done flags of the [env.step] calls, in order. *)
Definition step_dones (tr : list Ev) : list bool :=
  omap (fun e => match e with EvStep _ _ _ d => Some d | _ => None end) tr.

(** The rewards stored under [key] by the [env.step] calls, in order. *)
Definition step_rewards (key : string) (tr : list Ev) : list Qc :=
  omap (fun e => match e with EvStep _ _ rw _ => rw !! key | _ => None end) tr.

(** Argument and result of the [env.get_state_interpretation] calls. *)
Definition interp_calls (tr : list Ev) : list (ndarray * list Pos) :=
  omap (fun e => match e with EvInterp s l => Some (s, l) | _ => None end) tr.

(** Argument of the [env.reset] calls. *)
Definition reset_args (tr : list Ev) : list (option ndarray) :=
  omap (fun e => match e with EvReset s _ => Some s | _ => None end) tr.

(** The [explore] argument of the policy calls. *)
Definition act_explores (tr : list Ev) : list (option bool) :=
  omap (fun e => match e with EvAct _ _ _ x _ => Some x | _ => None end) tr.

(** The event that follows each [env.reset] call, if any. *)
Fixpoint after_resets (tr : list Ev) : list (option Ev) :=
  match tr with
  | [] => []
  | e :: tr' =>
      if is_reset e then head tr' :: after_resets tr' else after_resets tr'
  end.

(** A run cut into episodes: a piece ends with the reset that follows the
    episode; what comes after the last reset belongs to no episode.
    [cur] is the piece being collected. *)
Fixpoint split_episodes (cur : list Ev) (tr : list Ev) : list (list Ev) :=
  match tr with
  | [] => []
  | e :: tr' =>
      if is_reset e then (cur ++ [e]) :: split_episodes [] tr'
      else split_episodes (cur ++ [e]) tr'
  end.

(** The state component of the observations handed to the policies
    before the first [env.step] of a piece. *)
Fixpoint opening_states (tr : list Ev) : list Tensor :=
  match tr with
  | [] => []
  | EvStep _ _ _ _ :: _ => []
  | EvAct _ _ o _ _ :: tr' => ao_state o :: opening_states tr'
  | _ :: tr' => opening_states tr'
  end.

(** What one policy call of a joint selection looks like. *)
Definition act_of (ma_obs : gmap string (agent_obs Tensor))
    (ps : list Policy) (explore : option bool)
    (action : gmap string Action) (i : Z) (e : event ndarray Tensor Action Pos Policy) : Prop :=
  exists p o a,
    e = EvAct i p o explore a /\
    ps !! Z.to_nat i = Some p /\
    ma_obs !! fstr i = Some o /\
    action !! fstr i = Some a.

(** The state component of the observations handed to the policies
    between an [env.reset] and the first [env.step] that follows it. *)
Fixpoint post_reset_states (tr : list Ev) : list Tensor :=
  match tr with
  | [] => []
  | e :: tr' =>
      if is_reset e then opening_states tr' ++ post_reset_states tr'
      else post_reset_states tr'
  end.

End Traces.

(** ** The shape of a run

    The order in which an episode and a whole run call their
    collaborators, as predicates on traces. *)

Section Protocol.
Context {world ndarray Tensor Action Pos Policy : Type}.
Variable torch : Torch ndarray Tensor.
Variable env : Environment world ndarray Action Pos.

Local Abbreviation Ev := (event ndarray Tensor Action Pos Policy).

(** A policy call on an entry of the observation dictionary [ma_obs]. *)
Definition act_on (ma_obs : gmap string (agent_obs Tensor))
    (explore : option bool) (e : Ev) : Prop :=
  exists i p o a, e = EvAct i p o explore a /\ ma_obs !! fstr i = Some o.

(** The key under which the tracked reward is read. *)
Definition reward_key : string := fstr (agent0_index env).

(** The state the runner holds in [state] while the piece [piece] of a
    run is executed: the state queried at the head of the piece if there
    is such a query, and the state given to the runner otherwise. *)
Definition start_state (state : Tensor) (device : string) (piece : list Ev)
    : Tensor :=
  match piece with
  | EvGetState s :: _ => tensor_f32_to torch s device
  | _ => state
  end.

(** One episode started on [ma_obs]: policy calls, a step, and unless the
    step reports done a state query and the same again on the marshaled
    next observation. *)
Inductive episode_shape (device : string) (explore : option bool)
    : gmap string (agent_obs Tensor) -> list Ev -> Prop :=
| shape_done ma_obs acts a o rw r :
    Forall (act_on ma_obs explore) acts ->
    rw !! reward_key = Some r ->
    episode_shape device explore ma_obs (acts ++ [EvStep a o rw true])
| shape_more ma_obs acts a o rw r s tr :
    Forall (act_on ma_obs explore) acts ->
    rw !! reward_key = Some r ->
    episode_shape device explore
      (process_observation torch o device (tensor_f32_to torch s device)) tr ->
    episode_shape device explore ma_obs
      (acts ++ EvStep a o rw false :: EvGetState s :: tr).

(** A run of [n] episodes started on [ma_obs] while the runner holds
    [state]: each episode is followed by the interpretation of the held
    state and by a reset, to the held state in fixed-start mode, and in
    sampled-start mode without argument and followed by a state query
    whose answer becomes the held state. *)
Inductive run_shape (device : string) (explore : option bool)
    (estimate : bool)
    : nat -> gmap string (agent_obs Tensor) -> Tensor -> list Ev -> Prop :=
| run_end ma_obs state :
    run_shape device explore estimate 0 ma_obs state []
| run_fixed n ma_obs state tep trees o rest :
    estimate = false ->
    episode_shape device explore ma_obs tep ->
    run_shape device explore estimate n
      (process_observation torch o device state) state rest ->
    run_shape device explore estimate (S n) ma_obs state
      (tep ++ EvInterp (cpu_numpy torch state) trees
           :: EvReset (Some (cpu_numpy torch state)) o :: rest)
| run_sampled n ma_obs state tep trees o s rest :
    estimate = true ->
    episode_shape device explore ma_obs tep ->
    run_shape device explore estimate n
      (process_observation torch o device (tensor_f32_to torch s device))
      (tensor_f32_to torch s device) rest ->
    run_shape device explore estimate (S n) ma_obs state
      (tep ++ EvInterp (cpu_numpy torch state) trees
           :: EvReset None o :: EvGetState s :: rest).

(** What one piece of a run and the record appended for it have to do
    with each other. *)
Definition piece_record (gamma : Qc) (device : string) (estimate : bool)
    (state : Tensor) (rec : Qc * Pos) (piece : list Ev) : Prop :=
  exists trees o,
    let raw := cpu_numpy torch (start_state state device piece) in
    interp_calls piece = [(raw, trees)] /\
    initial_state_identifier env trees = Ok rec.2 /\
    rec.1 = discounted_return gamma (step_rewards reward_key piece) /\
    list.last piece = Some (EvReset (if estimate then None else Some raw) o) /\
    (estimate = false -> start_state state device piece = state).

End Protocol.

(** ** A small concrete world

    Two agents, a 3x3 fire whose top-left corner is the raw state, and
    episodes of three steps.  The world is the pair of the corner and the
    number of steps taken in the current episode.  A reset without
    argument moves the corner one cell to the right. *)
Module Toy.

Definition world : Type := (nat * nat)%type.

Definition obs_of (w : world) : gmap string nat :=
  {[ "0" := w.1; "1" := (w.1 + w.2)%nat ]}.

Definition square (corner : nat) : list (Z * Z) :=
  let c := Z.of_nat corner in
  [ (c, 0); (c + 1, 0); (c + 2, 0);
    (c, 1); (c + 1, 1); (c + 2, 1);
    (c, 2); (c + 1, 2); (c + 2, 2) ].

Definition torch : Torch nat nat :=
  {| from_numpy_to := fun a _ => a;
     tensor_f32_to := fun a _ => a;
     cpu_numpy := fun t => t |}.

Definition env : Environment world nat Z (Z * Z) :=
  {| num_agents := 2;
     initial_fire_size := 3;
     agent0_index := 0;
     env_step := fun _ w =>
       let w' := (w.1, S w.2) in
       ((obs_of w', ({[ "0" := Q2Qc 1; "1" := Q2Qc 5 ]} : gmap string Qc), (3 <=? w'.2)%nat), w');
     env_reset := fun s w =>
       let w' := match s with Some c => (c, O) | None => (S w.1, O) end in
       (obs_of w', w');
     env_get_state := fun w => (w.1, w);
     env_get_state_interpretation := fun s w => (square s, w) |}.

Definition pol : Policies world nat Z string :=
  {| get_policy := fun _ _ name => name;
     compute_single_action := fun p o explore w =>
       (match explore with Some false => 0 | _ => Z.of_nat (ao_obs o) end, w) |}.

Definition gamma : Qc := Q2Qc (99 # 100).

Definition start : world := (4%nat, O).

Definition start_obs : gmap string (agent_obs nat) :=
  process_observation torch (obs_of start) "cpu" 4%nat.

(** The same environment with another [initial_fire_size]. *)
Definition with_fire_size (s : Z) : Environment world nat Z (Z * Z) :=
  {| num_agents := num_agents env;
     initial_fire_size := s;
     agent0_index := agent0_index env;
     env_step := env_step env;
     env_reset := env_reset env;
     env_get_state := env_get_state env;
     env_get_state_interpretation := env_get_state_interpretation env |}.

Definition policies : list string :=
  load_agent_policies pol "model" "params" true 2.

(** One episode from the start. *)
Definition episode :=
  episode_loop torch env pol 5 gamma "cpu" policies false 0 0%Qc start_obs start.

(** A store in which reference 1 is the dictionary of raw observations
    that the environment delivers at the start. *)
Definition heap0 : gmap positive (gmap string (Heap.pyval nat nat)) :=
  {[ 1%positive := Heap.VArray <$> obs_of start ]}.

Definition run_with (fuel : nat) (num_episodes : Z)
    (estimate_expected_value : bool) :=
  run_episodes torch env pol fuel num_episodes gamma start_obs 4%nat
    "cpu" "model" "params" true false estimate_expected_value start.

Definition run (num_episodes : Z) (estimate_expected_value : bool) :=
  run_with 5 num_episodes estimate_expected_value.

End Toy.

(** ** More of the code: [obs_to_torch] *)

(** *** numpy *)

Record Numpy (ndarray Tensor : Type) : Type := {
  (** [np.array([a])] for an array [a]: the same data with one more
      leading axis *)
  np_array1 : ndarray -> ndarray;
  (** [np.array([t])] for a tensor [t]: what numpy makes of it, or the
      exception it raises *)
  np_array1_tensor : Tensor -> outcome ndarray
}.
Arguments np_array1 {ndarray Tensor} _ _.
Arguments np_array1_tensor {ndarray Tensor} _ _.

(** *** [obs_to_torch] on the Python heap

    The argument of [obs_to_torch] is a dictionary of dictionaries: the
    outer one maps an agent id to a reference to that agent's inner
    dictionary, whose values are arrays before the call and tensors after
    it.  Outer and inner dictionaries live in two stores. *)
Module Nested.

Inductive leaf (ndarray Tensor : Type) : Type :=
| LArray (a : ndarray)
| LTensor (t : Tensor).
Arguments LArray {ndarray Tensor} a.
Arguments LTensor {ndarray Tensor} t.

Section ObsToTorch.
Context {ndarray Tensor : Type}.
Variable torch : Torch ndarray Tensor.
Variable numpy : Numpy ndarray Tensor.

Local Abbreviation inner := (gmap string (leaf ndarray Tensor)).
Local Abbreviation outers := (gmap positive (gmap string positive)).
Local Abbreviation inners := (gmap positive inner).

(** What the loop body makes of an array [a]:
    [torch.from_numpy(np.array([a])).to(device)]. *)
Definition batched (device : string) (a : ndarray) : leaf ndarray Tensor :=
  LTensor (from_numpy_to torch (np_array1 numpy a) device).

(** [torch.from_numpy(np.array([v])).to(device)] for any value [v] of an
    inner dictionary. *)
Definition to_batched_tensor (device : string) (v : leaf ndarray Tensor)
    : outcome (leaf ndarray Tensor) :=
  match v with
  | LArray a => Ok (batched device a)
  | LTensor t =>
      match np_array1_tensor numpy t with
      | Ok a => Ok (LTensor (from_numpy_to torch a device))
      | Raise e => Raise e
      | Diverge => Diverge
      end
  end.

(** [for key2 in obs: obs[key2] = ...] on the inner dictionary at
    [obs]. *)
Fixpoint obs_to_torch_inner (keys2 : list string) (obs : positive)
    (device : string) (ins : inners) : outcome inners :=
  match keys2 with
  | [] => Ok ins
  | key2 :: keys2' =>
      let d := default ∅ (ins !! obs) in
      match py_getitem d key2 with
      | Ok v =>
          match to_batched_tensor device v with
          | Ok v' =>
              obs_to_torch_inner keys2' obs device (<[obs := <[key2 := v']> d]> ins)
          | Raise e => Raise e
          | Diverge => Diverge
          end
      | Raise e => Raise e
      | Diverge => Diverge
      end
  end.

(** [for key in ma_obs: obs = ma_obs[key]; ...; ma_obs[key] = obs] on
    the outer dictionary at [ma_obs]. *)
Fixpoint obs_to_torch_loop (keys : list string) (ma_obs : positive)
    (device : string) (outs : outers) (ins : inners)
    : outcome (outers * inners) :=
  match keys with
  | [] => Ok (outs, ins)
  | key :: keys' =>
      let d := default ∅ (outs !! ma_obs) in
      match py_getitem d key with
      | Ok obs =>
          let keys2 := (map_to_list (default ∅ (ins !! obs))).*1 in
          match obs_to_torch_inner keys2 obs device ins with
          | Ok ins' =>
              obs_to_torch_loop keys' ma_obs device
                (<[ma_obs := <[key := obs]> d]> outs) ins'
          | Raise e => Raise e
          | Diverge => Diverge
          end
      | Raise e => Raise e
      | Diverge => Diverge
      end
  end.

(** [obs_to_torch(ma_obs, device)]: the reference it was given and the
    two stores after the loops. *)
Definition obs_to_torch (ma_obs : positive) (device : string)
    (outs : outers) (ins : inners) : outcome (positive * outers * inners) :=
  let keys := (map_to_list (default ∅ (outs !! ma_obs))).*1 in
  match obs_to_torch_loop keys ma_obs device outs ins with
  | Ok (outs', ins') => Ok (ma_obs, outs', ins')
  | Raise e => Raise e
  | Diverge => Diverge
  end.

End ObsToTorch.
End Nested.

(** ** More ways to read a trace *)

Section TracesMore.
Context {ndarray Tensor Action Pos Policy : Type}.

Local Abbreviation Ev := (event ndarray Tensor Action Pos Policy).

(** The answers of the [env.get_state] calls, in order. *)
Definition state_queries (tr : list Ev) : list ndarray :=
  omap (fun e => match e with EvGetState s => Some s | _ => None end) tr.

(** For each [env.reset] call: the event that follows it, and the state
    component of the observations handed to the policies from there to
    the next [env.step]. *)
Fixpoint reset_followups (tr : list Ev) : list (option Ev * list Tensor) :=
  match tr with
  | [] => []
  | e :: tr' =>
      if is_reset e then (head tr', opening_states tr') :: reset_followups tr'
      else reset_followups tr'
  end.

(** The agent and observation of the policy calls made before the first
    [env.step] of a trace. *)
Fixpoint opening_acts (tr : list Ev) : list (Z * agent_obs Tensor) :=
  match tr with
  | [] => []
  | EvStep _ _ _ _ :: _ => []
  | EvAct i _ o _ _ :: tr' => (i, o) :: opening_acts tr'
  | _ :: tr' => opening_acts tr'
  end.

(** For each [env.step] that does not report done: the observations it
    returned, the event that follows it, and the policy calls made from
    there to the next step. *)
Fixpoint step_followups (tr : list Ev)
    : list (gmap string ndarray * option Ev * list (Z * agent_obs Tensor)) :=
  match tr with
  | [] => []
  | EvStep _ next_obs _ false :: tr' =>
      (next_obs, head tr', opening_acts tr') :: step_followups tr'
  | _ :: tr' => step_followups tr'
  end.

End TracesMore.

(** The index at which [run_episodes] reads the fire-cell list, for fire
    size [s]: [0] when [s % 2 == 0], [(s**2 - 1) // 2] otherwise. *)
Definition identifier_index (s : Z) : Z :=
  if bool_decide (s `mod` 2 = 0) then 0 else (s ^ 2 - 1) `div` 2.

Section ProtocolMore.
Context {world ndarray Tensor Action Pos Policy : Type}.
Variable torch : Torch ndarray Tensor.
Variable env : Environment world ndarray Action Pos.

Local Abbreviation Ev := (event ndarray Tensor Action Pos Policy).

(** The policy calls after a step use the observations of that step and
    the state queried right after it. *)
Definition fresh_followup (device : string)
    (x : gmap string ndarray * option Ev * list (Z * agent_obs Tensor)) : Prop :=
  exists s,
    x.1.2 = Some (EvGetState s) /\
    Forall (fun io : Z * agent_obs Tensor =>
              exists a, x.1.1 !! fstr io.1 = Some a /\
                io.2 = AgentObs (from_numpy_to torch a device)
                                (tensor_f32_to torch s device))
      x.2.


End ProtocolMore.

(** ** More of the concrete world *)
Module ToyMore.

(** An observation dictionary without the entry of agent 1. *)
Definition obs_agent0_only : gmap string (agent_obs nat) :=
  {[ "0" := AgentObs 4%nat 4%nat ]}.

(** The start observation with one more entry, under a key that is no
    agent's. *)
Definition obs_extra : gmap string (agent_obs nat) :=
  <["9" := AgentObs 0%nat 0%nat]> Toy.start_obs.



Definition numpy : Numpy nat nat :=
  {| np_array1 := S; np_array1_tensor := fun t => Ok t |}.

(** Two agents, each with its own inner dictionary of two arrays, and a
    third inner dictionary that no agent refers to. *)
Definition agents : gmap string positive :=
  <["0" := 2%positive]> {[ "1" := 3%positive ]}.

Definition arrays0 : gmap string nat := {[ "obs" := 4%nat; "state" := 7%nat ]}.
Definition arrays1 : gmap string nat := {[ "obs" := 5%nat; "state" := 7%nat ]}.

Definition outs0 : gmap positive (gmap string positive) :=
  {[ 1%positive := agents ]}.

Definition ins0 : gmap positive (gmap string (Nested.leaf nat nat)) :=
  {[ 2%positive := Nested.LArray <$> arrays0;
     3%positive := Nested.LArray <$> arrays1;
     5%positive := Nested.LArray <$> arrays0 ]}.

End ToyMore.

(** * Properties *)

(** ** The monad *)

Section MonadFacts.
Context {world Ev : Type}.

Lemma mret_Ok {A} (a b : A) (w w' : world) (tr : list Ev) :
  mret' a w = Ok (b, w', tr) <-> b = a /\ w' = w /\ tr = [].
Proof. unfold mret'. split; [intros [= <- <- <-] | intros (-> & -> & ->)]; done. Qed.

Lemma lift_Ok {A} (o : outcome A) (b : A) (w w' : world) (tr : list Ev) :
  lift o w = Ok (b, w', tr) <-> o = Ok b /\ w' = w /\ tr = [].
Proof.
  unfold lift. destruct o as [a|e|]; split.
  - intros [= <- <- <-]. done.
  - intros ([= ->] & -> & ->). done.
  - done.
  - intros ([=] & _).
  - done.
  - intros ([=] & _).
Qed.

Lemma call_Ok {A} (op : world -> A * world) (ev : A -> Ev) (b : A)
    (w w' : world) (tr : list Ev) :
  call op ev w = Ok (b, w', tr) <-> op w = (b, w') /\ tr = [ev b].
Proof.
  unfold call. destruct (op w) as [a w1]. split.
  - intros [= <- <- <-]. done.
  - intros [[= -> ->] ->]. done.
Qed.

Lemma mbind_Ok {A B} (m : M world Ev A) (f : A -> M world Ev B) (b : B)
    (w w' : world) (tr : list Ev) :
  mbind' m f w = Ok (b, w', tr) <->
  exists a w1 t1 t2,
    m w = Ok (a, w1, t1) /\ f a w1 = Ok (b, w', t2) /\ tr = t1 ++ t2.
Proof.
  unfold mbind'. split.
  - destruct (m w) as [[[a w1] t1]| |]; try done.
    destruct (f a w1) as [[[b' w2] t2]| |] eqn:Hf; try done.
    intros [= <- <- <-]. by exists a, w1, t1, t2.
  - intros (a & w1 & t1 & t2 & -> & -> & ->). done.
Qed.

Lemma mbind_agree {A B} (m : M world Ev A) (f g : A -> M world Ev B)
    (w : world) :
  (forall a w1, f a w1 <> Diverge -> g a w1 = f a w1) ->
  mbind' m f w <> Diverge -> mbind' m g w = mbind' m f w.
Proof.
  unfold mbind'. intros Hfg. destruct (m w) as [[[a w1] t1]| |]; [|done..].
  intros Hnd. rewrite Hfg; [done|]. intros E. by rewrite E in Hnd.
Qed.





End MonadFacts.

(** Take apart a hypothesis saying that a monadic computation returned. *)
Ltac inv_run H :=
  repeat match type of H with
  | mbind' _ _ _ = Ok _ =>
      let a := fresh "a" in let w := fresh "w" in
      let t1 := fresh "t" in let t2 := fresh "t" in
      let H1 := fresh "Hm" in let Ht := fresh "Ht" in
      apply mbind_Ok in H as (a & w & t1 & t2 & H1 & H & Ht);
      try inv_run H1
  | mret' _ _ = Ok _ => apply mret_Ok in H as (? & ? & ?)
  | lift _ _ = Ok _ => apply lift_Ok in H as (H & ? & ?)
  | call _ _ _ = Ok _ => apply call_Ok in H as (H & ?)
  end.

(** ** Python lists and ranges *)

Lemma py_index_nonneg {A} (l : list A) (i : Z) (x : A) :
  0 <= i -> py_index l i = Ok x <-> l !! Z.to_nat i = Some x.
Proof.
  intros Hi. unfold py_index. split.
  - case_bool_decide as H1.
    + destruct (l !! Z.to_nat i); [intros [= ->]; done | done].
    + case_bool_decide as H2; [lia | done].
  - intros Hl. pose proof (lookup_lt_Some _ _ _ Hl).
    rewrite bool_decide_eq_true_2 by lia. by rewrite Hl.
Qed.

Lemma range_length (n : Z) : length (range n) = Z.to_nat n.
Proof. unfold range. apply length_seqZ. Qed.

Lemma range_lookup (n : Z) (i : nat) :
  Z.of_nat i < n -> range n !! i = Some (Z.of_nat i).
Proof. intros H. unfold range. rewrite lookup_seqZ_lt by lia. done. Qed.

Lemma range_elem (n i : Z) : i ∈ range n <-> 0 <= i < n.
Proof. unfold range. rewrite elem_of_seqZ. lia. Qed.

Lemma range_NoDup (n : Z) : NoDup (range n).
Proof. apply NoDup_seqZ. Qed.

Global Instance fstr_inj : Inj (=) (=) fstr.
Proof. unfold fstr. apply _. Qed.

(** ** The runner *)

Section RunnerFacts.
Context {world ndarray Tensor Action Pos Policy : Type}.
Variable torch : Torch ndarray Tensor.
Variable env : Environment world ndarray Action Pos.
Variable pol : Policies world Tensor Action Policy.

Local Abbreviation Ev := (event ndarray Tensor Action Pos Policy).

(** *** Policy loader *)

(** C8. With policy sharing the loader returns [num_agents] handles, every
    one of them the handle obtained under the name [shared_policy], hence
    all identical; without sharing the i-th handle is the one obtained
    under [policy_i], the names being pairwise distinct and the list in
    order of increasing agent index. *)
Theorem load_agent_policies_handles (model_path params_path : string)
    (shared_policy : bool) (n : Z) :
  1 <= n ->
  let ps := load_agent_policies pol model_path params_path shared_policy n in
  Z.of_nat (length ps) = n /\
  (shared_policy = true ->
     (forall p, p ∈ ps -> p = get_policy pol model_path params_path "shared_policy") /\
     (forall p q, p ∈ ps -> q ∈ ps -> p = q)) /\
  (shared_policy = false ->
     ps = (fun i => get_policy pol model_path params_path ("policy_" +:+ fstr i))
            <$> range n /\
     (forall i : nat, Z.of_nat i < n ->
        ps !! i = Some (get_policy pol model_path params_path
                          ("policy_" +:+ fstr (Z.of_nat i)))) /\
     (forall i j : Z, "policy_" +:+ fstr i = "policy_" +:+ fstr j -> i = j)).
Proof.
  intros Hn ps. split; [|split].
  - subst ps. unfold load_agent_policies.
    destruct shared_policy; rewrite length_fmap, range_length; lia.
  - intros ->. subst ps. unfold load_agent_policies.
    assert (Hall : forall p,
      p ∈ (fun _ : Z => get_policy pol model_path params_path "shared_policy")
            <$> range n ->
      p = get_policy pol model_path params_path "shared_policy").
    { intros p (i & -> & _)%list_elem_of_fmap. done. }
    split; [exact Hall|].
    intros p q Hp%Hall Hq%Hall. congruence.
  - intros ->. subst ps. unfold load_agent_policies. split; [done|]. split.
    + intros i Hi. rewrite list_lookup_fmap, range_lookup by done. done.
    + intros i j Hij. apply (inj fstr). by apply (inj (String.app "policy_")).
Qed.

(** *** Joint action selection *)

Lemma action_dict_spec (ma_obs : gmap string (agent_obs Tensor))
    (ps : list Policy) (explore : option bool) (idxs : list Z) :
  forall (acc : gmap string Action) (w : world),
  NoDup idxs ->
  (forall i, i ∈ idxs ->
     0 <= i /\ (Z.to_nat i < length ps)%nat /\ is_Some (ma_obs !! fstr i)) ->
  exists action w' tr,
    action_dict pol ma_obs ps explore idxs acc w = Ok (action, w', tr) /\
    Forall2 (fun i (e : Ev) => act_of ma_obs ps explore action i e) idxs tr /\
    dom action = dom acc ∪ list_to_set (fstr <$> idxs) /\
    (forall k, k ∉ fstr <$> idxs -> action !! k = acc !! k).
Proof.
  induction idxs as [|i idxs IH]; intros acc w Hnd Hok.
  - exists acc, w, []. cbn. unfold mret'. split; [done|].
    split; [constructor|]. split; [set_solver|done].
  - apply list.NoDup_cons in Hnd as [Hi Hnd].
    destruct (Hok i) as (Hi0 & Hlt & [o Ho]); [left|].
    destruct (lookup_lt_is_Some_2 ps (Z.to_nat i) Hlt) as [p Hp].
    destruct (compute_single_action pol p o explore w) as [a w1] eqn:Hc.
    destruct (IH (<[fstr i := a]> acc) w1 Hnd) as (action & w' & tr & Hrun & Hall & Hdom & Hfr).
    { intros j Hj. apply Hok. by right. }
    exists action, w', (EvAct i p o explore a :: tr).
    assert (Hkey : fstr i ∉ fstr <$> idxs).
    { intros (j & Hj & Hin)%list_elem_of_fmap. apply (inj fstr) in Hj. by subst. }
    split; [|split; [|split]].
    + cbn [action_dict]. unfold mbind' at 1. unfold agent_action.
      unfold mbind', lift, call, mret', py_getitem.
      apply (py_index_nonneg ps i p Hi0) in Hp. rewrite Hp, Ho, Hc. cbn.
      rewrite Hrun. done.
    + constructor; [|done].
      exists p, o, a. repeat split; try done.
      rewrite (Hfr _ Hkey). apply lookup_insert_eq.
    + rewrite Hdom, dom_insert_L, fmap_cons. cbn. set_solver.
    + intros k Hk. rewrite fmap_cons in Hk. apply not_elem_of_cons in Hk as [Hk1 Hk2].
      rewrite (Hfr _ Hk2). by apply lookup_insert_ne.
Qed.

(** C9. A joint selection over well-formed inputs (a policy for every
    agent, an observation under every agent's key) returns; it calls the
    policies once per agent, in agent order, every call with the same
    [explore] argument ([explore=False] in deterministic mode, none in
    stochastic mode), and nothing else; the action dictionary has exactly
    the keys [f"{i}"], one per agent, holding that agent's action. *)
Theorem select_action_uniform (ma_obs : gmap string (agent_obs Tensor))
    (ps : list Policy) (n : Z) (stochastic_policy : bool) (w : world) :
  (Z.to_nat n <= length ps)%nat ->
  (forall i, 0 <= i < n -> is_Some (ma_obs !! fstr i)) ->
  exists action w' tr,
    select_action pol ma_obs ps n stochastic_policy w = Ok (action, w', tr) /\
    Forall2 (fun i (e : Ev) =>
               act_of ma_obs ps (if stochastic_policy then None else Some false)
                 action i e)
      (range n) tr /\
    act_explores tr =
      replicate (Z.to_nat n) (if stochastic_policy then None else Some false) /\
    dom action = list_to_set (fstr <$> range n) /\
    size action = Z.to_nat n.
Proof.
  intros Hps Hobs.
  destruct (action_dict_spec ma_obs ps
              (if stochastic_policy then None else Some false) (range n) ∅ w)
    as (action & w' & tr & Hrun & Hall & Hdom & _).
  { apply range_NoDup. }
  { intros i Hi%range_elem. split; [lia|]. split; [lia|]. by apply Hobs. }
  exists action, w', tr. split; [|split; [done|split; [|split]]].
  - unfold select_action. by destruct stochastic_policy.
  - rewrite <- range_length.
    clear -Hall. unfold act_explores.
    induction Hall as [|i e idxs tr' (p & o & a & -> & _) _ IH]; [done|].
    cbn. by rewrite IH.
  - rewrite Hdom, dom_empty_L. set_solver.
  - rewrite <- size_dom, Hdom, dom_empty_L, (left_id_L ∅ (∪)).
    rewrite size_list_to_set.
    + by rewrite length_fmap, range_length.
    + apply NoDup_fmap_2; [apply _|apply range_NoDup].
Qed.

(** *** Traces of a joint selection and of an episode *)

Lemma action_dict_acts (ma_obs : gmap string (agent_obs Tensor))
    (ps : list Policy) (explore : option bool) (idxs : list Z) :
  forall (acc action : gmap string Action) (w w' : world) (tr : list Ev),
  action_dict pol ma_obs ps explore idxs acc w = Ok (action, w', tr) ->
  Forall (act_on ma_obs explore) tr.
Proof.
  induction idxs as [|i idxs IH]; intros acc action w w' tr H; cbn in H.
  - inv_run H. subst. constructor.
  - apply mbind_Ok in H as (kv & w1 & t1 & t2 & Hkv & H & ->).
    unfold agent_action in Hkv. inv_run Hkv. subst. cbn.
    constructor; [|by eapply IH].
    unfold py_getitem in Hm0. destruct (ma_obs !! fstr i) eqn:Ho; [|done].
    injection Hm0 as ->. by eexists _, _, _, _.
Qed.

Lemma select_action_acts (ma_obs : gmap string (agent_obs Tensor))
    (ps : list Policy) (n : Z) (stochastic_policy : bool)
    (action : gmap string Action) (w w' : world) (tr : list Ev) :
  select_action pol ma_obs ps n stochastic_policy w = Ok (action, w', tr) ->
  Forall (act_on ma_obs (if stochastic_policy then None else Some false)) tr.
Proof.
  unfold select_action. destruct stochastic_policy; apply action_dict_acts.
Qed.

Lemma omap_none {A B} (f : A -> option B) (l : list A) :
  Forall (fun x => f x = None) l -> omap f l = [].
Proof. induction 1 as [|x l Hx _ IH]; [done|]. cbn. by rewrite Hx. Qed.

Lemma acts_no_step (ma_obs : gmap string (agent_obs Tensor))
    (explore : option bool) (key : string) (acts : list Ev) :
  Forall (act_on ma_obs explore) acts ->
  step_rewards key acts = [] /\ step_dones acts = [] /\
  interp_calls acts = [] /\ reset_args acts = [] /\
  Forall (fun e => is_reset e = false) acts /\
  Forall (fun e => is_get_state e = false) acts.
Proof.
  intros H. repeat split;
    try (apply omap_none); eapply Forall_impl; try exact H;
    by intros e (i & p & o & a & -> & _).
Qed.

(** An episode that returns follows [episode_shape]; its result is the
    accumulator it started with plus the discounted rewards of its steps,
    and it makes at most [fuel] steps. *)
Lemma episode_loop_shape (gamma : Qc) (device : string) (ps : list Policy)
    (stochastic_policy : bool) (fuel : nat) :
  forall (t : nat) (ret : Qc) (ma_obs : gmap string (agent_obs Tensor))
         (w w' : world) (ret' : Qc) (tr : list Ev),
  episode_loop torch env pol fuel gamma device ps stochastic_policy t ret ma_obs w
    = Ok (ret', w', tr) ->
  episode_shape torch env device (if stochastic_policy then None else Some false)
    ma_obs tr /\
  ret' = (ret + discounted_from gamma t (step_rewards (reward_key env) tr))%Qc /\
  (length (step_dones tr) <= fuel)%nat.
Proof.
  induction fuel as [|fuel IH]; intros t ret ma_obs w w' ret' tr H; [done|].
  cbn [episode_loop] in H.
  apply mbind_Ok in H as (ma_action & w1 & t1 & t2 & Hsel & H & ->).
  apply select_action_acts in Hsel.
  apply mbind_Ok in H as ([[next_obs reward] done] & w2 & t3 & t4 & Hstep & H & ->).
  apply call_Ok in Hstep as [Hstep ->]. cbn [fst snd] in *.
  apply mbind_Ok in H as (r & w3 & t5 & t6 & Hr & H & ->).
  apply lift_Ok in Hr as (Hr & -> & ->).
  unfold py_getitem in Hr.
  destruct (reward !! fstr (agent0_index env)) as [r'|] eqn:Hrw; [|done].
  injection Hr as ->.
  destruct (acts_no_step _ _ (reward_key env) _ Hsel) as (Hsr & Hsd & _).
  destruct done.
  - apply mret_Ok in H as (-> & -> & ->). cbn [app].
    split; [by eapply shape_done|]. split.
    + unfold step_rewards in *. rewrite omap_app, Hsr. cbn.
      unfold reward_key. rewrite Hrw. cbn. ring.
    + unfold step_dones in *. rewrite omap_app, Hsd. cbn. lia.
  - apply mbind_Ok in H as (s & w4 & t7 & t8 & Hgs & H & ->).
    apply call_Ok in Hgs as [Hgs ->].
    apply IH in H as (Hshape & -> & Hlen). cbn [app].
    split; [by eapply shape_more|]. split.
    + unfold step_rewards in *. rewrite omap_app, Hsr. cbn.
      unfold reward_key in *. rewrite Hrw. cbn. ring.
    + unfold step_dones in *. rewrite omap_app, Hsd. cbn. lia.
Qed.

(** More fuel does not change an episode that has ended. *)
Lemma episode_loop_mono (gamma : Qc) (device : string) (ps : list Policy)
    (stochastic_policy : bool) (fuel : nat) :
  forall (fuel' t : nat) (ret : Qc) (ma_obs : gmap string (agent_obs Tensor))
         (w : world),
  (fuel <= fuel')%nat ->
  episode_loop torch env pol fuel gamma device ps stochastic_policy t ret ma_obs w
    <> Diverge ->
  episode_loop torch env pol fuel' gamma device ps stochastic_policy t ret ma_obs w
  = episode_loop torch env pol fuel gamma device ps stochastic_policy t ret ma_obs w.
Proof.
  induction fuel as [|fuel IH]; intros fuel' t ret ma_obs w Hle Hnd; [done|].
  destruct fuel' as [|fuel']; [lia|].
  cbn [episode_loop] in *. revert Hnd.
  apply mbind_agree. intros ma_action w1.
  apply mbind_agree. intros [[next_obs reward] done] w2.
  apply mbind_agree. intros r w3.
  destruct done; [done|].
  apply mbind_agree. intros s w4.
  apply IH. lia.
Qed.

Lemma episode_shape_facts (device : string) (explore : option bool)
    (ma_obs : gmap string (agent_obs Tensor)) (tr : list Ev) :
  episode_shape torch env device explore ma_obs tr ->
  interp_calls tr = [] /\
  reset_args tr = [] /\
  Forall (fun e => is_reset e = false) tr /\
  length (step_rewards (reward_key env) tr) = length (step_dones tr) /\
  exists T pre a o rw,
    tr = pre ++ [EvStep a o rw true] /\ step_dones pre = replicate T false.
Proof.
  induction 1 as [ma_obs acts a o rw r Hacts Hr
                 |ma_obs acts a o rw r s tr Hacts Hr _ IH].
  - destruct (acts_no_step _ _ (reward_key env) _ Hacts)
      as (Hsr & Hsd & Hic & Hra & Hnr & _).
    unfold interp_calls, reset_args, step_rewards, step_dones in *.
    rewrite !omap_app, Hsr, Hsd, Hic, Hra. cbn. rewrite Hr. cbn.
    repeat split; try done.
    + apply Forall_app. split; [done|]. by repeat constructor.
    + by exists 0%nat, acts, a, o, rw.
  - destruct (acts_no_step _ _ (reward_key env) _ Hacts)
      as (Hsr & Hsd & Hic & Hra & Hnr & _).
    destruct IH as (IHic & IHra & IHnr & IHlen & T & pre & a' & o' & rw' & -> & Hpre).
    unfold interp_calls, reset_args, step_rewards, step_dones in *.
    rewrite !omap_app, Hsr, Hsd, Hic, Hra. cbn. rewrite Hr. cbn.
    repeat split; try done.
    + apply Forall_app. split; [done|]. by repeat constructor.
    + by rewrite IHlen.
    + exists (S T), (acts ++ EvStep a o rw false :: EvGetState s :: pre), a', o', rw'.
      split; [by rewrite <- app_assoc|].
      rewrite omap_app, Hsd. cbn. by rewrite Hpre.
Qed.


(** C3. A completed episode has made [T+1] steps of which exactly the
    last reported done; that last step is the last event of the episode
    (no policy call, step or state query follows it); the return sums one
    discounted reward per step, the one of the last step included; and
    allowing more iterations changes nothing. *)
Theorem episode_stops_at_done (gamma : Qc) (device : string)
    (ps : list Policy) (stochastic_policy : bool) (fuel : nat)
    (ma_obs : gmap string (agent_obs Tensor)) (w w' : world)
    (ret : Qc) (tr : list Ev) :
  episode_loop torch env pol fuel gamma device ps stochastic_policy
    0 0%Qc ma_obs w = Ok (ret, w', tr) ->
  exists T pre a o rw,
    tr = pre ++ [EvStep a o rw true] /\
    step_dones pre = replicate T false /\
    length (step_rewards (reward_key env) tr) = S T /\
    ret = discounted_return gamma (step_rewards (reward_key env) tr) /\
    (S T <= fuel)%nat /\
    forall fuel', (fuel <= fuel')%nat ->
      episode_loop torch env pol fuel' gamma device ps stochastic_policy
        0 0%Qc ma_obs w = Ok (ret, w', tr).
Proof.
  intros H. pose proof H as H0.
  apply episode_loop_shape in H as (Hshape & -> & Hfuel).
  apply episode_shape_facts in Hshape
    as (_ & _ & _ & Hlen & T & pre & a & o & rw & -> & Hpre).
  assert (Hd : length (step_dones (pre ++ [EvStep a o rw true])) = S T).
  { unfold step_dones in *. rewrite omap_app, Hpre, length_app, length_replicate.
    cbn. lia. }
  exists T, pre, a, o, rw. split; [done|]. split; [done|].
  split; [congruence|]. split; [unfold discounted_return; ring|].
  split; [lia|].
  intros fuel' Hle. rewrite <- H0. apply episode_loop_mono; [done|].
  by rewrite H0.
Qed.


(** *** Traces of a whole run *)

Lemma split_episodes_no_reset (pre rest : list Ev) :
  forall cur : list Ev,
  Forall (fun e => is_reset e = false) pre ->
  split_episodes cur (pre ++ rest) = split_episodes (cur ++ pre) rest.
Proof.
  induction pre as [|e pre IH]; intros cur H.
  - by rewrite app_nil_r.
  - apply list.Forall_cons in H as [He H]. cbn. rewrite He, IH by done.
    by rewrite <- app_assoc.
Qed.

Lemma episode_shape_start (device : string) (explore : option bool)
    (ma_obs : gmap string (agent_obs Tensor)) (tr rest : list Ev)
    (state : Tensor) :
  episode_shape torch env device explore ma_obs tr ->
  start_state torch state device (tr ++ rest) = state.
Proof.
  destruct 1 as [ma_obs acts a o rw r Hacts _|ma_obs acts a o rw r s tr Hacts _ _];
    (destruct Hacts as [|e acts (i & p & o' & a' & -> & _) _]; done).
Qed.

Lemma split_episodes_head (tr : list Ev) :
  forall (cur p : list Ev) (ps : list (list Ev)),
  split_episodes cur tr = p :: ps -> exists rest, p = cur ++ rest.
Proof.
  induction tr as [|e tr IH]; intros cur p ps H; [done|].
  cbn in H. destruct (is_reset e).
  - injection H as <- _. by exists [e].
  - apply IH in H as [rest ->]. exists (e :: rest). by rewrite <- app_assoc.
Qed.

(** The pieces of a run that returns, one per record, in order. *)
Lemma episodes_loop_pieces (gamma : Qc) (device : string) (ps : list Policy)
    (stochastic_policy estimate : bool) (state0 : Tensor) (fuel n : nat) :
  forall (ma_obs : gmap string (agent_obs Tensor)) (state : Tensor)
         (acc : list (Qc * Pos)) (cur : list Ev) (w w' : world)
         (l : list (Qc * Pos)) (tr : list Ev),
  (cur = [] /\ state = state0) \/
  (estimate = true /\
   exists s, cur = [EvGetState s] /\ state = tensor_f32_to torch s device) ->
  episodes_loop torch env pol fuel n gamma device ps stochastic_policy estimate
    ma_obs state acc w = Ok (l, w', tr) ->
  exists recs,
    l = acc ++ recs /\ length recs = n /\
    Forall2 (piece_record torch env gamma device estimate state0) recs
      (split_episodes cur tr) /\
    (forall p, head (split_episodes cur tr) = Some p ->
       start_state torch state0 device p = state) /\
    (estimate = true ->
       Forall (fun q : list Ev => exists s rest, q = EvGetState s :: rest)
         (tail (split_episodes cur tr))).
Proof.
  induction n as [|n IH]; intros ma_obs state acc cur w w' l tr Hcur H;
    cbn [episodes_loop] in H.
  { apply mret_Ok in H as (-> & -> & ->). exists []. by rewrite app_nil_r. }
  apply mbind_Ok in H as (ret & w1 & tep & t2 & Hep & H & ->).
  apply episode_loop_shape in Hep as (Hshape & Hret & _).
  pose proof (episode_shape_facts _ _ _ _ Hshape)
    as (Hic & Hra & Hnr & _ & _).
  assert (Hstart : forall rest,
    start_state torch state0 device ((cur ++ tep) ++ rest) = state).
  { intros rest. destruct Hcur as [[-> ->]|(_ & s & -> & ->)]; [|done].
    cbn [app]. by eapply episode_shape_start. }
  assert (Hcic : interp_calls cur = [] /\ step_rewards (reward_key env) cur = []).
  { destruct Hcur as [[-> _]|(_ & s & -> & _)]; done. }
  destruct Hcic as [Hcic Hcsr].
  assert (Hpiece : forall trees ident o arg,
    initial_state_identifier env trees = Ok ident ->
    arg = (if estimate then None else Some (cpu_numpy torch state)) ->
    piece_record torch env gamma device estimate state0 (ret, ident)
      ((cur ++ tep) ++ [EvInterp (cpu_numpy torch state) trees; EvReset arg o])).
  { intros trees ident o arg Hid ->. exists trees, o. cbn zeta.
    rewrite Hstart. split; [|split; [done|split; [|split]]].
    - unfold interp_calls in *. rewrite !omap_app, Hcic, Hic. done.
    - cbn [fst]. unfold step_rewards in *. rewrite !omap_app, Hcsr. cbn.
      rewrite app_nil_r. rewrite Hret. unfold discounted_return. ring.
    - by rewrite last_app.
    - intros ->. by destruct Hcur as [[_ ->]|([=] & _)]. }
  destruct estimate.
  - apply mbind_Ok in H as (trees & w2 & t3 & t4 & Hint & H & ->).
    apply call_Ok in Hint as [_ ->].
    apply mbind_Ok in H as (ident & w3 & t5 & t6 & Hid & H & ->).
    apply lift_Ok in Hid as (Hid & -> & ->).
    apply mbind_Ok in H as (o & w4 & t7 & t8 & Hrs & H & ->).
    apply call_Ok in Hrs as [_ ->].
    apply mbind_Ok in H as (s & w5 & t9 & t10 & Hgs & H & ->).
    apply call_Ok in Hgs as [_ ->].
    apply (IH _ _ _ [EvGetState s]) in H
      as (recs & -> & Hlen & Hall & _ & Htl);
      [|right; split; [done|by exists s]].
    exists ((ret, ident) :: recs). split; [by rewrite <- app_assoc|].
    split; [cbn; lia|]. cbn [app].
    rewrite split_episodes_no_reset by done. cbn [split_episodes is_reset].
    rewrite <- app_assoc. cbn [app head tail].
    split; [|split].
    + constructor; [|done]. by apply Hpiece.
    + intros p [= <-]. apply Hstart.
    + intros _. specialize (Htl eq_refl).
      destruct (split_episodes [EvGetState s] t10) as [|q qs] eqn:Hq; [done|].
      constructor; [|done].
      apply split_episodes_head in Hq as [rest ->]. by exists s, rest.
  - apply mbind_Ok in H as (trees & w2 & t3 & t4 & Hint & H & ->).
    apply call_Ok in Hint as [_ ->].
    apply mbind_Ok in H as (ident & w3 & t5 & t6 & Hid & H & ->).
    apply lift_Ok in Hid as (Hid & -> & ->).
    apply mbind_Ok in H as (o & w4 & t7 & t8 & Hrs & H & ->).
    apply call_Ok in Hrs as [_ ->].
    assert (Hst : state = state0).
    { by destruct Hcur as [[_ ->]|([=] & _)]. }
    apply (IH _ _ _ []) in H as (recs & -> & Hlen & Hall & _ & _);
      [|by left].
    exists ((ret, ident) :: recs). split; [by rewrite <- app_assoc|].
    split; [cbn; lia|]. cbn [app].
    rewrite split_episodes_no_reset by done. cbn [split_episodes is_reset].
    rewrite <- app_assoc. cbn [app head tail].
    split; [|split; [|done]].
    + constructor; [|done]. by apply Hpiece.
    + intros p [= <-]. apply Hstart.
Qed.

(** A run that returns follows [run_shape]. *)
Lemma episodes_loop_shape (gamma : Qc) (device : string) (ps : list Policy)
    (stochastic_policy estimate : bool) (fuel n : nat) :
  forall (ma_obs : gmap string (agent_obs Tensor)) (state : Tensor)
         (acc : list (Qc * Pos)) (w w' : world)
         (l : list (Qc * Pos)) (tr : list Ev),
  episodes_loop torch env pol fuel n gamma device ps stochastic_policy estimate
    ma_obs state acc w = Ok (l, w', tr) ->
  run_shape torch env device (if stochastic_policy then None else Some false)
    estimate n ma_obs state tr.
Proof.
  induction n as [|n IH]; intros ma_obs state acc w w' l tr H;
    cbn [episodes_loop] in H.
  { apply mret_Ok in H as (-> & -> & ->). constructor. }
  apply mbind_Ok in H as (ret & w1 & tep & t2 & Hep & H & ->).
  apply episode_loop_shape in Hep as (Hshape & _ & _).
  destruct estimate.
  - apply mbind_Ok in H as (trees & w2 & t3 & t4 & Hint & H & ->).
    apply call_Ok in Hint as [_ ->].
    apply mbind_Ok in H as (ident & w3 & t5 & t6 & Hid & H & ->).
    apply lift_Ok in Hid as (Hid & -> & ->).
    apply mbind_Ok in H as (o & w4 & t7 & t8 & Hrs & H & ->).
    apply call_Ok in Hrs as [_ ->].
    apply mbind_Ok in H as (s & w5 & t9 & t10 & Hgs & H & ->).
    apply call_Ok in Hgs as [_ ->].
    apply IH in H. cbn [app]. by apply run_sampled.
  - apply mbind_Ok in H as (trees & w2 & t3 & t4 & Hint & H & ->).
    apply call_Ok in Hint as [_ ->].
    apply mbind_Ok in H as (ident & w3 & t5 & t6 & Hid & H & ->).
    apply lift_Ok in Hid as (Hid & -> & ->).
    apply mbind_Ok in H as (o & w4 & t7 & t8 & Hrs & H & ->).
    apply call_Ok in Hrs as [_ ->].
    apply IH in H. cbn [app]. by apply run_fixed.
Qed.




(** *** The initial state identifier *)






(** *** Reset modes *)

Lemma run_shape_fixed_calls (device : string) (explore : option bool)
    (n : nat) (ma_obs : gmap string (agent_obs Tensor)) (state : Tensor)
    (tr : list Ev) :
  run_shape torch env device explore false n ma_obs state tr ->
  reset_args tr = replicate n (Some (cpu_numpy torch state)) /\
  (interp_calls tr).*1 = replicate n (cpu_numpy torch state).
Proof.
  induction 1 as [ma_obs state
                 |n ma_obs state tep trees o rest _ Hshape _ IH
                 |n ma_obs state tep trees o s rest [=] _ _ _]; [done|].
  apply episode_shape_facts in Hshape as (Hic & Hra & _).
  destruct IH as [IHr IHi].
  unfold reset_args, interp_calls in *. rewrite !omap_app, Hic, Hra. cbn.
  by rewrite IHr, IHi.
Qed.

(** C6. In fixed-start mode every [env.reset] call of a run that returns
    is given the state passed to the runner, and there is one such call
    per episode; every episode is started while the runner holds that
    same state, which is also the state interpreted after the episode. *)
Theorem fixed_start_resets_to_given_state (fuel : nat) (num_episodes : Z)
    (gamma : Qc) (ma_obs : gmap string (agent_obs Tensor)) (state : Tensor)
    (device model_path params_path : string)
    (shared_policy stochastic_policy : bool) (w w' : world)
    (l : list (Qc * Pos)) (tr : list Ev) :
  run_episodes torch env pol fuel num_episodes gamma ma_obs state device
    model_path params_path shared_policy stochastic_policy false w
    = Ok (l, w', tr) ->
  reset_args tr =
    replicate (Z.to_nat num_episodes) (Some (cpu_numpy torch state)) /\
  (interp_calls tr).*1 =
    replicate (Z.to_nat num_episodes) (cpu_numpy torch state) /\
  length (split_episodes [] tr) = Z.to_nat num_episodes /\
  Forall (fun piece : list Ev =>
            start_state torch state device piece = state /\
            exists o, list.last piece =
                        Some (EvReset (Some (cpu_numpy torch state)) o))
    (split_episodes [] tr).
Proof.
  intros H. unfold run_episodes in H. pose proof H as H0.
  apply episodes_loop_shape, run_shape_fixed_calls in H0 as [Hr Hi].
  split; [done|]. split; [done|].
  apply (episodes_loop_pieces _ _ _ _ _ state _ _ _ _ _ []) in H
    as (recs & -> & Hlen & Hall & _); [|by left].
  split; [apply Forall2_length in Hall as Hl; cbn [app]; lia|].
  clear -Hall. induction Hall as [|rec piece recs pieces Hp _ IH]; [done|].
  constructor; [|done].
  destruct Hp as (trees & o & _ & _ & _ & Hlast & Hst).
  cbn zeta in Hlast. rewrite Hst in Hlast by done. split; [by apply Hst|].
  by exists o.
Qed.


Lemma after_resets_no_reset (pre rest : list Ev) :
  Forall (fun e => is_reset e = false) pre ->
  after_resets (pre ++ rest) = after_resets rest /\
  post_reset_states (pre ++ rest) = post_reset_states rest.
Proof.
  induction 1 as [|e pre He _ [IH1 IH2]]; [done|]. cbn. by rewrite He.
Qed.

Lemma episode_shape_opening (device : string) (explore : option bool)
    (ma_obs : gmap string (agent_obs Tensor)) (tr rest : list Ev) :
  episode_shape torch env device explore ma_obs tr ->
  (exists e, head (tr ++ rest) = Some e /\ is_act e || is_step e = true) /\
  Forall (fun s => exists k o, ma_obs !! k = Some o /\ ao_state o = s)
    (opening_states (tr ++ rest)).
Proof.
  assert (Hopen : forall (acts : list Ev) (e : Ev) (more : list Ev),
    Forall (act_on ma_obs explore) acts -> is_step e = true ->
    (exists e', head (acts ++ e :: more) = Some e' /\
                is_act e' || is_step e' = true) /\
    Forall (fun s => exists k o, ma_obs !! k = Some o /\ ao_state o = s)
      (opening_states (acts ++ e :: more))).
  { intros acts e more Hacts He.
    induction Hacts as [|e' acts (i & p & o & a & -> & Ho) _ [_ IH]].
    - split; [exists e; cbn; by rewrite He, orb_true_r|].
      by destruct e.
    - split; [by eexists|]. cbn. constructor; [by eexists _, _|done]. }
  destruct 1 as [ma_obs acts a o rw r Hacts _
                |ma_obs acts a o rw r s tr Hacts _ _];
    rewrite <- app_assoc; by apply Hopen.
Qed.

Lemma process_observation_state (obs : gmap string ndarray)
    (device : string) (state : Tensor) (k : string) (o : agent_obs Tensor) :
  process_observation torch obs device state !! k = Some o ->
  ao_state o = state.
Proof.
  unfold process_observation. rewrite lookup_fmap.
  destruct (obs !! k); [|done]. by intros [= <-].
Qed.

Lemma run_shape_fixed_resets (device : string) (explore : option bool)
    (n : nat) (ma_obs : gmap string (agent_obs Tensor)) (state : Tensor)
    (tr : list Ev) :
  run_shape torch env device explore false n ma_obs state tr ->
  Forall (fun x : option Ev =>
            match x with
            | None => True
            | Some e => is_act e || is_step e = true
            end) (after_resets tr) /\
  Forall (fun s => s = state) (post_reset_states tr) /\
  ((forall k o, ma_obs !! k = Some o -> ao_state o = state) ->
   Forall (fun s => s = state) (opening_states tr)).
Proof.
  induction 1 as [ma_obs state
                 |n ma_obs state tep trees o rest _ Hshape Hrest IH
                 |n ma_obs state tep trees o s rest [=] _ _ _].
  { repeat split; constructor. }
  destruct IH as (IHa & IHp & IHo).
  pose proof (episode_shape_facts _ _ _ _ Hshape) as (_ & _ & Hnr & _).
  destruct (after_resets_no_reset tep
              (EvInterp (cpu_numpy torch state) trees
                 :: EvReset (Some (cpu_numpy torch state)) o :: rest) Hnr)
    as [-> ->].
  cbn [after_resets post_reset_states is_reset].
  split; [|split].
  - constructor; [|done]. inversion Hrest as [| |]; subst; [done| |done].
    match goal with Hs : episode_shape _ _ _ _ _ ?t |- context [?t ++ ?r] =>
      destruct (episode_shape_opening _ _ _ _ r Hs) as [(e & -> & He) _] end.
    done.
  - apply Forall_app. split; [|done].
    apply IHo. intros k o'. apply process_observation_state.
  - intros Hobs.
    destruct (episode_shape_opening _ _ _ _
                (EvInterp (cpu_numpy torch state) trees
                   :: EvReset (Some (cpu_numpy torch state)) o :: rest) Hshape)
      as [_ Hop].
    eapply Forall_impl; [|exact Hop].
    intros s' (k & o' & Ho' & <-). by eapply Hobs.
Qed.

Lemma run_shape_sampled_resets (device : string) (explore : option bool)
    (n : nat) (ma_obs : gmap string (agent_obs Tensor)) (state : Tensor)
    (tr : list Ev) :
  run_shape torch env device explore true n ma_obs state tr ->
  length (after_resets tr) = n /\
  Forall (fun x : option Ev => exists s, x = Some (EvGetState s))
    (after_resets tr).
Proof.
  induction 1 as [ma_obs state
                 |n ma_obs state tep trees o rest [=] _ _ _
                 |n ma_obs state tep trees o s rest _ Hshape _ [IHl IHa]];
    [done|].
  pose proof (episode_shape_facts _ _ _ _ Hshape) as (_ & _ & Hnr & _).
  destruct (after_resets_no_reset tep
              (EvInterp (cpu_numpy torch state) trees
                 :: EvReset None o :: EvGetState s :: rest) Hnr) as [-> _].
  cbn. split; [by rewrite IHl|]. constructor; [by exists s|done].
Qed.

(** C10. In fixed-start mode the event that follows an [env.reset] of a
    run that returns is never a state query: it is the first policy call
    (or, without agents, the step) of the next episode, if there is one;
    the observations handed to the policies between a reset and the next
    step all carry the state passed to the runner, and so do those of the
    first episode when the observation passed to the runner carries it.
    In sampled-start mode every reset is followed at once by a state
    query. *)
Theorem fixed_start_reuses_state (fuel : nat) (num_episodes : Z)
    (gamma : Qc) (ma_obs : gmap string (agent_obs Tensor)) (state : Tensor)
    (device model_path params_path : string)
    (shared_policy stochastic_policy estimate : bool) (w w' : world)
    (l : list (Qc * Pos)) (tr : list Ev) :
  run_episodes torch env pol fuel num_episodes gamma ma_obs state device
    model_path params_path shared_policy stochastic_policy estimate w
    = Ok (l, w', tr) ->
  (estimate = false ->
     Forall (fun x : option Ev =>
               match x with
               | None => True
               | Some e => is_act e || is_step e = true
               end) (after_resets tr) /\
     Forall (fun s => s = state) (post_reset_states tr) /\
     ((forall k o, ma_obs !! k = Some o -> ao_state o = state) ->
      Forall (fun s => s = state) (opening_states tr))) /\
  (estimate = true ->
     length (after_resets tr) = Z.to_nat num_episodes /\
     Forall (fun x : option Ev => exists s, x = Some (EvGetState s))
       (after_resets tr)).
Proof.
  intros H. unfold run_episodes in H. apply episodes_loop_shape in H.
  split; intros ->.
  - by eapply run_shape_fixed_resets.
  - by eapply run_shape_sampled_resets.
Qed.

End RunnerFacts.

(** ** The observation adapter *)

Section AdapterFacts.
Context {ndarray Tensor : Type}.
Variable torch : Torch ndarray Tensor.

Local Abbreviation dict := (gmap string (Heap.pyval ndarray Tensor)).
Local Abbreviation store := (gmap positive dict).

(** The loop over a list of distinct keys that all hold raw arrays
    replaces exactly the entries under those keys, in the dictionary at
    [l] and nowhere else. *)
Lemma process_observation_loop_spec (l : positive) (device : string)
    (state : Tensor) (st : store) (keys : list string) :
  forall m : dict,
  NoDup keys ->
  (forall k, k ∈ keys -> exists a, m !! k = Some (Heap.VArray a)) ->
  exists m' : dict,
    Heap.process_observation_loop torch keys l device state (<[l := m]> st)
      = Ok (<[l := m']> st) /\
    forall k,
      m' !! k =
        if decide (k ∈ keys) then
          match m !! k with
          | Some (Heap.VArray a) =>
              Some (Heap.VEntry (AgentObs (from_numpy_to torch a device) state))
          | x => x
          end
        else m !! k.
Proof.
  induction keys as [|key keys IH]; intros m Hnd Hm.
  - exists m. split; [done|]. intros k. case_decide as Hk; [|done].
    by apply elem_of_nil in Hk.
  - apply list.NoDup_cons in Hnd as [Hkey Hnd].
    destruct (Hm key) as [a Ha]; [left|].
    destruct (IH (<[key := Heap.VEntry (AgentObs (from_numpy_to torch a device) state)]> m) Hnd)
      as (m' & Hrun & Hm').
    { intros k Hk. destruct (Hm k) as [a' Ha']; [by right|]. exists a'.
      rewrite lookup_insert_ne; [done|]. by intros ->. }
    exists m'. split.
    + cbn [Heap.process_observation_loop]. cbv zeta.
      rewrite lookup_insert_eq. cbn [default from_option id].
      unfold py_getitem. rewrite Ha. cbn [Heap.marshal_entry].
      by rewrite insert_insert_eq.
    + intros k. rewrite Hm'. destruct (decide (k = key)) as [->|Hne].
      * rewrite (decide_False (P := key ∈ keys)) by done.
        rewrite (decide_True (P := key ∈ key :: keys)) by left.
        by rewrite lookup_insert_eq, Ha.
      * rewrite lookup_insert_ne by done.
        case_decide as H1; case_decide as H2; try done.
        -- exfalso. apply H2. by right.
        -- apply elem_of_cons in H2 as [?|?]; done.
Qed.

(** C4, as the code has it. Called on a reference to a dictionary of raw
    arrays, the adapter returns the same reference; afterwards the
    dictionary at that reference holds, under the same keys, the entries
    with the array as a tensor on the device and the state as it was
    passed; no other dictionary of the store changes. *)
Theorem process_observation_in_place (ma_obs : positive)
    (obs : gmap string ndarray) (device : string) (state : Tensor)
    (st : store) :
  st !! ma_obs = Some (Heap.VArray <$> obs) ->
  Heap.process_observation torch ma_obs device state st =
  Ok (ma_obs,
      <[ma_obs := Heap.VEntry <$> process_observation torch obs device state]> st).
Proof.
  intros Hst. unfold Heap.process_observation. rewrite Hst.
  cbn [default from_option id].
  destruct (process_observation_loop_spec ma_obs device state st
              (map_to_list (Heap.VArray (Tensor:=Tensor) <$> obs)).*1
              (Heap.VArray <$> obs))
    as (m' & Hrun & Hm').
  { apply NoDup_fst_map_to_list. }
  { intros k ((k' & v) & -> & Hin)%list_elem_of_fmap.
    apply elem_of_map_to_list in Hin. cbn.
    rewrite lookup_fmap in Hin |- *. destruct (obs !! k') as [a|]; [|done].
    by exists a. }
  rewrite (insert_id st ma_obs _ Hst) in Hrun. rewrite Hrun.
  do 3 f_equal. apply map_eq. intros k. rewrite Hm'.
  unfold process_observation. rewrite !lookup_fmap.
  destruct (obs !! k) as [a|] eqn:Hk; cbn; [|by case_decide].
  rewrite decide_True; [done|].
  apply list_elem_of_fmap. exists (k, Heap.VArray a). split; [done|].
  apply elem_of_map_to_list. by rewrite lookup_fmap, Hk.
Qed.

End AdapterFacts.

(** ** The concrete world *)

(** The spec's own examples: three rewards of 1 at discount 0.99 give
    2.9701, and a 3x3 fire is identified by its centre, the cell at
    index 4. *)
Example discounted_return_three_ones :
  this (discounted_return Toy.gamma [Q2Qc 1; Q2Qc 1; Q2Qc 1]) = (29701 # 10000)%Q.
Proof. vm_compute. reflexivity. Qed.

Example identifier_side_3 :
  initial_state_identifier (Toy.with_fire_size 3) (Toy.square 0) = Ok (1, 1).
Proof. reflexivity. Qed.

Example identifier_side_2 :
  initial_state_identifier (Toy.with_fire_size 2) [(0, 0); (1, 0); (0, 1); (1, 1)]
  = Ok (0, 0).
Proof. reflexivity. Qed.

Example identifier_short_list :
  initial_state_identifier (Toy.with_fire_size 3) [(0, 0); (1, 0)]
  = Raise (IndexError 4).
Proof. reflexivity. Qed.

Example toy_run_fixed :
  match Toy.run 2 false with
  | Ok (l, _, _) => Some ((fun r : Qc * (Z * Z) => (this r.1, r.2)) <$> l)
  | _ => None
  end = Some [((29701 # 10000)%Q, (5, 1)); ((29701 # 10000)%Q, (5, 1))].
Proof. vm_compute. reflexivity. Qed.

Example toy_run_sampled :
  match Toy.run 2 true with
  | Ok (l, _, _) => Some ((fun r : Qc * (Z * Z) => (this r.1, r.2)) <$> l)
  | _ => None
  end = Some [((29701 # 10000)%Q, (5, 1)); ((29701 # 10000)%Q, (6, 1))].
Proof. vm_compute. reflexivity. Qed.


(** *** Instances *)

Lemma load_agent_policies_handles_witness :
  1 <= 2 /\
  Z.of_nat (length (load_agent_policies Toy.pol "model" "params" true 2)) = 2 /\
  load_agent_policies Toy.pol "model" "params" false 2 = ["policy_0"; "policy_1"].
Proof.
  split; [lia|]. split.
  - destruct (load_agent_policies_handles (world:=Toy.world) (Tensor:=nat)
                (Action:=Z) Toy.pol "model" "params" true 2) as [H _]; [lia|].
    exact H.
  - destruct (load_agent_policies_handles (world:=Toy.world) (Tensor:=nat)
                (Action:=Z) Toy.pol "model" "params" false 2)
      as (_ & _ & H); [lia|].
    destruct (H eq_refl) as [-> _]. reflexivity.
Defined.

Lemma select_action_uniform_witness :
  exists action w' tr,
    select_action (ndarray:=nat) (Pos:=Z * Z) Toy.pol Toy.start_obs
      Toy.policies 2 false Toy.start = Ok (action, w', tr) /\
    act_explores tr = [Some false; Some false] /\
    size action = 2%nat.
Proof.
  destruct (select_action_uniform (ndarray:=nat) (Pos:=Z * Z) Toy.pol
              Toy.start_obs Toy.policies 2 false Toy.start)
    as (action & w' & tr & Hrun & _ & Hex & _ & Hsize).
  - vm_compute. lia.
  - intros i Hi. assert (i = 0 \/ i = 1) as [-> | ->] by lia;
      vm_compute; eauto.
  - exists action, w', tr. split; [exact Hrun|]. split; [exact Hex|exact Hsize].
Defined.


Lemma episode_stops_at_done_witness :
  exists ret w' tr,
    Toy.episode = Ok (ret, w', tr) /\
    exists T pre a o rw,
      tr = pre ++ [EvStep a o rw true] /\ step_dones pre = replicate T false.
Proof.
  destruct Toy.episode as [[[ret w'] tr]| |] eqn:E.
  - exists ret, w', tr. split; [reflexivity|].
    destruct (episode_stops_at_done Toy.torch Toy.env Toy.pol
                _ _ _ _ _ _ _ _ _ _ E)
      as (T & pre & a & o & rw & H1 & H2 & _).
    exists T, pre, a, o, rw. split; [exact H1|exact H2].
  - vm_compute in E. discriminate.
  - vm_compute in E. discriminate.
Defined.



Lemma fixed_start_resets_to_given_state_witness :
  exists l w' tr,
    Toy.run 2 false = Ok (l, w', tr) /\
    reset_args tr = [Some 4%nat; Some 4%nat].
Proof.
  destruct (Toy.run 2 false) as [[[l w'] tr]| |] eqn:E.
  - exists l, w', tr. split; [reflexivity|].
    exact (proj1 (fixed_start_resets_to_given_state Toy.torch Toy.env Toy.pol
                    _ _ _ _ _ _ _ _ _ _ _ _ _ _ E)).
  - vm_compute in E. discriminate.
  - vm_compute in E. discriminate.
Defined.


Lemma fixed_start_reuses_state_witness :
  exists l w' tr,
    Toy.run 2 false = Ok (l, w', tr) /\
    Forall (fun s => s = 4%nat) (post_reset_states tr).
Proof.
  destruct (Toy.run 2 false) as [[[l w'] tr]| |] eqn:E.
  - exists l, w', tr. split; [reflexivity|].
    destruct (fixed_start_reuses_state Toy.torch Toy.env Toy.pol
                _ _ _ _ _ _ _ _ _ _ _ _ _ _ _ E) as [Hfixed _].
    exact (proj1 (proj2 (Hfixed eq_refl))).
  - vm_compute in E. discriminate.
  - vm_compute in E. discriminate.
Defined.

Lemma process_observation_in_place_witness :
  Toy.heap0 !! 1%positive = Some (Heap.VArray <$> Toy.obs_of Toy.start) /\
  Heap.process_observation Toy.torch 1%positive "cpu" 4%nat Toy.heap0 =
  Ok (1%positive,
      <[1%positive := Heap.VEntry <$>
          process_observation Toy.torch (Toy.obs_of Toy.start) "cpu" 4%nat]>
        Toy.heap0).
Proof.
  split; [reflexivity|].
  apply (process_observation_in_place Toy.torch 1%positive
           (Toy.obs_of Toy.start) "cpu" 4%nat Toy.heap0).
  reflexivity.
Defined.

(** C4, as the spec states it, fails: after the call the dictionary that
    was passed in holds marshaled entries where it held raw arrays. *)
Lemma process_observation_mutates_input :
  exists st',
    Heap.process_observation Toy.torch 1%positive "cpu" 4%nat Toy.heap0
      = Ok (1%positive, st') /\
    Toy.heap0 !! 1%positive ≫= (.!! "0") = Some (Heap.VArray 4%nat) /\
    st' !! 1%positive ≫= (.!! "0") = Some (Heap.VEntry (AgentObs 4%nat 4%nat)) /\
    st' !! 1%positive <> Toy.heap0 !! 1%positive.
Proof.
  eexists. split; [vm_compute; reflexivity|].
  split; [reflexivity|]. split; [reflexivity|].
  intros H. apply (f_equal (fun d => d ≫= (.!! "0"))) in H.
  vm_compute in H. discriminate.
Qed.

(** * More properties *)

Section MonadMore.
Context {world Ev : Type}.




End MonadMore.

Section SelectionMore.
Context {world ndarray Tensor Action Pos Policy : Type}.
Variable pol : Policies world Tensor Action Policy.

Local Abbreviation Ev := (event ndarray Tensor Action Pos Policy).

(** Indexing at a non-negative position succeeds exactly below the
    length. *)
Lemma py_index_nonneg_eq {A} (l : list A) (i : Z) :
  0 <= i ->
  py_index l i =
  match l !! Z.to_nat i with Some x => Ok x | None => Raise (IndexError i) end.
Proof.
  intros Hi. unfold py_index. case_bool_decide as H1.
  - done.
  - rewrite bool_decide_eq_false_2 by lia.
    rewrite (lookup_ge_None_2 l (Z.to_nat i)) by lia. done.
Qed.

(** What one item of the comprehension evaluates to. *)
Lemma agent_action_eq (ma_obs : gmap string (agent_obs Tensor))
    (ps : list Policy) (explore : option bool) (i : Z) (w : world) :
  0 <= i ->
  agent_action (ndarray:=ndarray) (Pos:=Pos) pol ma_obs ps explore i w =
  match ps !! Z.to_nat i with
  | None => Raise (IndexError i)
  | Some p =>
      match ma_obs !! fstr i with
      | None => Raise (KeyError (fstr i))
      | Some o =>
          let '(a, w') := compute_single_action pol p o explore w in
          Ok ((fstr i, a), w', [EvAct i p o explore a])
      end
  end.
Proof.
  intros Hi. unfold agent_action, mbind', lift, call, mret', py_getitem.
  rewrite py_index_nonneg_eq by done.
  destruct (ps !! Z.to_nat i) as [p|]; [|done].
  destruct (ma_obs !! fstr i) as [o|]; [|done].
  by destruct (compute_single_action pol p o explore w) as [a w'].
Qed.

(** The failures of the comprehension: an agent without policy, or an
    agent without observation. *)
Lemma action_dict_Raise (ma_obs : gmap string (agent_obs Tensor))
    (ps : list Policy) (explore : option bool) (idxs : list Z) :
  forall (acc : gmap string Action) (w : world) (e : exn),
  (forall i, i ∈ idxs -> 0 <= i) ->
  action_dict (ndarray:=ndarray) (Pos:=Pos) pol ma_obs ps explore idxs acc w
    = Raise e ->
  exists i, i ∈ idxs /\
    ((ps !! Z.to_nat i = None /\ e = IndexError i) \/
     (is_Some (ps !! Z.to_nat i) /\ ma_obs !! fstr i = None /\
      e = KeyError (fstr i))).
Proof.
  induction idxs as [|i idxs IH]; intros acc w e Hpos H; [done|].
  cbn [action_dict] in H. unfold mbind' at 1 in H.
  rewrite agent_action_eq in H by (apply Hpos; left).
  destruct (ps !! Z.to_nat i) as [p|] eqn:Hp.
  2:{ injection H as <-. exists i. split; [left|]. by left. }
  destruct (ma_obs !! fstr i) as [o|] eqn:Ho.
  2:{ injection H as <-. exists i. split; [left|]. right. by eauto. }
  destruct (compute_single_action pol p o explore w) as [a w1].
  destruct (action_dict pol ma_obs ps explore idxs _ w1)
    as [[[b w2] t2]| |] eqn:Hrest; [done| |done].
  injection H as <-. apply IH in Hrest as (j & Hj & Hcase).
  - exists j. split; [by right|done].
  - intros j Hj. apply Hpos. by right.
Qed.

Lemma action_dict_Ok_inv (ma_obs : gmap string (agent_obs Tensor))
    (ps : list Policy) (explore : option bool) (idxs : list Z) :
  forall (acc action : gmap string Action) (w w' : world) (tr : list Ev),
  (forall i, i ∈ idxs -> 0 <= i) ->
  action_dict pol ma_obs ps explore idxs acc w = Ok (action, w', tr) ->
  forall i, i ∈ idxs ->
    is_Some (ps !! Z.to_nat i) /\ is_Some (ma_obs !! fstr i).
Proof.
  induction idxs as [|i idxs IH]; intros acc action w w' tr Hpos H j Hj.
  { by apply elem_of_nil in Hj. }
  cbn [action_dict] in H. unfold mbind' at 1 in H.
  rewrite agent_action_eq in H by (apply Hpos; left).
  destruct (ps !! Z.to_nat i) as [p|] eqn:Hp; [|done].
  destruct (ma_obs !! fstr i) as [o|] eqn:Ho; [|done].
  destruct (compute_single_action pol p o explore w) as [a w1].
  destruct (action_dict pol ma_obs ps explore idxs _ w1)
    as [[[b w2] t2]| |] eqn:Hrest; [|done..].
  apply elem_of_cons in Hj as [->|Hj].
  - by rewrite Hp, Ho.
  - eapply IH; [|exact Hrest|done]. intros k Hk. apply Hpos. by right.
Qed.

(** X1. A joint selection returns exactly when there is a policy for
    every agent index below [num_agents] and an observation under every
    agent's key. *)
Theorem select_action_returns_iff (ma_obs : gmap string (agent_obs Tensor))
    (ps : list Policy) (n : Z) (stochastic_policy : bool) (w : world) :
  (exists action w' (tr : list Ev),
     select_action pol ma_obs ps n stochastic_policy w = Ok (action, w', tr))
  <->
  (Z.to_nat n <= length ps)%nat /\
  (forall i, 0 <= i < n -> is_Some (ma_obs !! fstr i)).
Proof.
  split.
  - intros (action & w' & tr & H).
    assert (Hall : forall i, i ∈ range n ->
      is_Some (ps !! Z.to_nat i) /\ is_Some (ma_obs !! fstr i)).
    { unfold select_action in H. destruct stochastic_policy;
        (eapply action_dict_Ok_inv; [|exact H]);
        intros i Hi%range_elem; lia. }
    split.
    + destruct (decide (n <= 0)) as [|Hn]; [lia|].
      destruct (Hall (n - 1)) as [Hp _]; [apply range_elem; lia|].
      apply lookup_lt_is_Some_1 in Hp. lia.
    + intros i Hi. apply Hall. by apply range_elem.
  - intros [Hps Hobs].
    destruct (action_dict_spec (ndarray:=ndarray) (Pos:=Pos) pol ma_obs ps
                (if stochastic_policy then None else Some false) (range n) ∅ w)
      as (action & w' & tr & Hrun & _).
    { apply range_NoDup. }
    { intros i Hi%range_elem. split; [lia|]. split; [lia|]. by apply Hobs. }
    exists action, w', tr. unfold select_action. by destruct stochastic_policy.
Qed.

Lemma action_dict_first_failure (ma_obs : gmap string (agent_obs Tensor))
    (ps : list Policy) (explore : option bool) (i : Z) (post : list Z)
    (e : exn) (pre : list Z) :
  forall (acc : gmap string Action) (w : world),
  (forall j, j ∈ pre ->
     0 <= j /\ is_Some (ps !! Z.to_nat j) /\ is_Some (ma_obs !! fstr j)) ->
  0 <= i ->
  (ps !! Z.to_nat i = None /\ e = IndexError i) \/
  (is_Some (ps !! Z.to_nat i) /\ ma_obs !! fstr i = None /\
   e = KeyError (fstr i)) ->
  action_dict (ndarray:=ndarray) (Pos:=Pos) pol ma_obs ps explore
    (pre ++ i :: post) acc w = Raise e.
Proof.
  induction pre as [|j pre IH]; intros acc w Hpre Hi Hfail.
  - cbn [app action_dict]. unfold mbind' at 1. rewrite agent_action_eq by done.
    destruct Hfail as [[-> ->]|([p ->] & -> & ->)]; done.
  - destruct (Hpre j) as (Hj & [p Hp] & [o Ho]); [left|].
    cbn [app action_dict]. unfold mbind' at 1. rewrite agent_action_eq by done.
    rewrite Hp, Ho. destruct (compute_single_action pol p o explore w) as [a w1].
    rewrite IH; [done| |done..]. intros k Hk. apply Hpre. by right.
Qed.

Lemma range_split (n i : Z) :
  0 <= i < n -> range n = range i ++ i :: seqZ (i + 1) (n - i - 1).
Proof.
  intros Hi. unfold range.
  replace n with (i + (n - i)) at 1 by lia.
  rewrite seqZ_app by lia. f_equal. rewrite seqZ_cons by lia.
  rewrite Z.add_0_l. by rewrite <- Z.add_1_r, <- Z.sub_1_r.
Qed.

(** X2. With enough policies, a joint selection on a dictionary that
    lacks the observation of some agent raises [KeyError] with the key of
    the first agent, in index order, that has none. *)
Theorem select_action_missing_observation
    (ma_obs : gmap string (agent_obs Tensor)) (ps : list Policy) (n : Z)
    (stochastic_policy : bool) (w : world) (i : Z) :
  (Z.to_nat n <= length ps)%nat ->
  0 <= i < n ->
  ma_obs !! fstr i = None ->
  (forall j, 0 <= j < i -> is_Some (ma_obs !! fstr j)) ->
  select_action (ndarray:=ndarray) (Pos:=Pos) pol ma_obs ps n
    stochastic_policy w = Raise (KeyError (fstr i)).
Proof.
  intros Hps Hi Hnone Hbefore.
  assert (Hlt : forall j, 0 <= j < n -> is_Some (ps !! Z.to_nat j)).
  { intros j Hj. apply lookup_lt_is_Some_2. lia. }
  unfold select_action. rewrite (range_split n i) by done.
  destruct stochastic_policy; apply action_dict_first_failure; try lia;
    try (right; split; [apply Hlt; lia|done]);
    intros j Hj%range_elem; (split; [lia|]); (split; [apply Hlt; lia|]);
    apply Hbefore; lia.
Qed.

(** X3. With fewer policies than agents, and observations present for
    the agents that do have a policy, a joint selection raises
    [IndexError] at the first index without policy. *)
Theorem select_action_missing_policy
    (ma_obs : gmap string (agent_obs Tensor)) (ps : list Policy) (n : Z)
    (stochastic_policy : bool) (w : world) :
  Z.of_nat (length ps) < n ->
  (forall j, 0 <= j < Z.of_nat (length ps) -> is_Some (ma_obs !! fstr j)) ->
  select_action (ndarray:=ndarray) (Pos:=Pos) pol ma_obs ps n
    stochastic_policy w = Raise (IndexError (Z.of_nat (length ps))).
Proof.
  intros Hps Hobs.
  unfold select_action. rewrite (range_split n (Z.of_nat (length ps))) by lia.
  destruct stochastic_policy; apply action_dict_first_failure; try lia;
    try (left; split; [apply lookup_ge_None_2; lia|done]);
    intros j Hj%range_elem; (split; [lia|]);
    (split; [apply lookup_lt_is_Some_2; lia|]); apply Hobs; lia.
Qed.

Lemma action_dict_frame (ma_obs1 ma_obs2 : gmap string (agent_obs Tensor))
    (ps1 ps2 : list Policy) (explore : option bool) (idxs : list Z) :
  forall (acc : gmap string Action) (w : world),
  (forall i, i ∈ idxs ->
     0 <= i /\ ps1 !! Z.to_nat i = ps2 !! Z.to_nat i /\
     ma_obs1 !! fstr i = ma_obs2 !! fstr i) ->
  action_dict (ndarray:=ndarray) (Pos:=Pos) pol ma_obs1 ps1 explore idxs acc w
  = action_dict pol ma_obs2 ps2 explore idxs acc w.
Proof.
  induction idxs as [|i idxs IH]; intros acc w H; [done|].
  destruct (H i) as (Hi & Hp & Ho); [left|].
  cbn [action_dict]. unfold mbind' at 1 2.
  rewrite !agent_action_eq by done. rewrite Hp, Ho.
  destruct (ps2 !! Z.to_nat i) as [p|]; [|done].
  destruct (ma_obs2 !! fstr i) as [o|]; [|done].
  destruct (compute_single_action pol p o explore w) as [a w1].
  rewrite IH; [done|]. intros j Hj. apply H. by right.
Qed.

(** X4. A joint selection reads only the observations under the keys
    of the agents [0 .. num_agents-1] and only the first [num_agents]
    policies: on inputs that agree there it gives the same result, the
    same calls and the same failure. *)
Theorem select_action_frame (ma_obs1 ma_obs2 : gmap string (agent_obs Tensor))
    (ps1 ps2 : list Policy) (n : Z) (stochastic_policy : bool) (w : world) :
  (forall i, 0 <= i < n -> ma_obs1 !! fstr i = ma_obs2 !! fstr i) ->
  (forall i : nat, Z.of_nat i < n -> ps1 !! i = ps2 !! i) ->
  select_action (ndarray:=ndarray) (Pos:=Pos) pol ma_obs1 ps1 n
    stochastic_policy w
  = select_action pol ma_obs2 ps2 n stochastic_policy w.
Proof.
  intros Hobs Hps. unfold select_action.
  destruct stochastic_policy; apply action_dict_frame;
    intros i Hi%range_elem; (split; [lia|]);
    (split; [apply Hps; lia|by apply Hobs]).
Qed.

(** X5. With the policy list that [load_agent_policies] builds for
    [num_agents] agents, the only way a joint selection over
    [num_agents] agents fails is a missing observation key: it never
    raises [IndexError]. *)
Theorem select_action_loaded_policies
    (ma_obs : gmap string (agent_obs Tensor))
    (model_path params_path : string) (shared_policy : bool) (n : Z)
    (stochastic_policy : bool) (w : world) (e : exn) :
  select_action (ndarray:=ndarray) (Pos:=Pos) pol ma_obs
    (load_agent_policies pol model_path params_path shared_policy n) n
    stochastic_policy w = Raise e ->
  exists i, 0 <= i < n /\ ma_obs !! fstr i = None /\ e = KeyError (fstr i).
Proof.
  intros H.
  assert (Hex : exists i, i ∈ range n /\
    ((load_agent_policies pol model_path params_path shared_policy n
        !! Z.to_nat i = None /\ e = IndexError i) \/
     (is_Some (load_agent_policies pol model_path params_path shared_policy n
        !! Z.to_nat i) /\ ma_obs !! fstr i = None /\ e = KeyError (fstr i)))).
  { unfold select_action in H. destruct stochastic_policy;
      (eapply action_dict_Raise; [|exact H]); intros i Hi%range_elem; lia. }
  destruct Hex as (i & Hi%range_elem & [[Hnone _]|(_ & Hobs & ->)]).
  - exfalso. apply lookup_ge_None_1 in Hnone.
    unfold load_agent_policies in Hnone.
    destruct shared_policy; rewrite length_fmap, range_length in Hnone; lia.
  - by exists i.
Qed.

End SelectionMore.

Section RunnerMore.
Context {world ndarray Tensor Action Pos Policy : Type}.
Variable torch : Torch ndarray Tensor.
Variable env : Environment world ndarray Action Pos.
Variable pol : Policies world Tensor Action Policy.

Local Abbreviation Ev := (event ndarray Tensor Action Pos Policy).

(** One iteration of the episode loop, as equations. *)
Lemma episode_loop_S_Ok (gamma : Qc) (device : string) (ps : list Policy)
    (stochastic_policy : bool) (fuel t : nat) (ret : Qc)
    (ma_obs : gmap string (agent_obs Tensor)) (w w' : world) (ret' : Qc)
    (tr : list Ev) :
  episode_loop torch env pol (S fuel) gamma device ps stochastic_policy t ret
    ma_obs w = Ok (ret', w', tr) <->
  exists ma_action w1 acts next_obs reward done w2 r,
    select_action pol ma_obs ps (num_agents env) stochastic_policy w
      = Ok (ma_action, w1, acts) /\
    env_step env ma_action w1 = (next_obs, reward, done, w2) /\
    reward !! reward_key env = Some r /\
    if done then
      ret' = (ret + gamma ^ t * r)%Qc /\ w' = w2 /\
      tr = acts ++ [EvStep ma_action next_obs reward true]
    else
      exists s w3 rest,
        env_get_state env w2 = (s, w3) /\
        episode_loop torch env pol fuel gamma device ps stochastic_policy
          (S t) (ret + gamma ^ t * r)%Qc
          (process_observation torch next_obs device
             (tensor_f32_to torch s device)) w3 = Ok (ret', w', rest) /\
        tr = acts ++ EvStep ma_action next_obs reward false
                  :: EvGetState s :: rest.
Proof.
  cbn [episode_loop]. split.
  - intros H.
    apply mbind_Ok in H as (ma_action & w1 & acts & t2 & Hsel & H & ->).
    apply mbind_Ok in H as ([[next_obs reward] done] & w2 & t3 & t4 & Hstep & H & ->).
    apply call_Ok in Hstep as [Hstep ->]. cbn [fst snd] in *.
    apply mbind_Ok in H as (r & w3 & t5 & t6 & Hr & H & ->).
    apply lift_Ok in Hr as (Hr & -> & ->). unfold py_getitem in Hr.
    destruct (reward !! fstr (agent0_index env)) as [r'|] eqn:Hrw; [|done].
    injection Hr as ->.
    exists ma_action, w1, acts, next_obs, reward, done, w2, r.
    split; [done|]. split; [done|]. split; [done|].
    destruct done.
    + by apply mret_Ok in H as (-> & -> & ->).
    + apply mbind_Ok in H as (s & w4 & t7 & t8 & Hgs & H & ->).
      apply call_Ok in Hgs as [Hgs ->]. by exists s, w4, t8.
  - intros (ma_action & w1 & acts & next_obs & reward & done & w2 & r
            & Hsel & Hstep & Hr & H).
    unfold mbind' at 1. rewrite Hsel.
    unfold mbind' at 1. unfold call at 1. rewrite Hstep. cbn [fst snd].
    unfold mbind' at 1. unfold lift at 1. unfold py_getitem.
    unfold reward_key in Hr. rewrite Hr.
    destruct done.
    + destruct H as (-> & -> & ->). done.
    + destruct H as (s & w3 & rest & Hgs & Hrest & ->).
      unfold mbind' at 1. unfold call at 1. rewrite Hgs, Hrest. done.
Qed.

(** One iteration of the run loop, as equations. *)
Lemma episodes_loop_S_Ok (gamma : Qc) (device : string) (ps : list Policy)
    (stochastic_policy estimate : bool) (fuel n : nat)
    (ma_obs : gmap string (agent_obs Tensor)) (state : Tensor)
    (acc : list (Qc * Pos)) (w w' : world) (l : list (Qc * Pos))
    (tr : list Ev) :
  episodes_loop torch env pol fuel (S n) gamma device ps stochastic_policy
    estimate ma_obs state acc w = Ok (l, w', tr) <->
  exists ret w1 tep trees w2 ident o w3,
    episode_loop torch env pol fuel gamma device ps stochastic_policy
      0 0%Qc ma_obs w = Ok (ret, w1, tep) /\
    env_get_state_interpretation env (cpu_numpy torch state) w1 = (trees, w2) /\
    initial_state_identifier env trees = Ok ident /\
    env_reset env (if estimate then None else Some (cpu_numpy torch state)) w2
      = (o, w3) /\
    if estimate then
      exists s w4 rest,
        env_get_state env w3 = (s, w4) /\
        episodes_loop torch env pol fuel n gamma device ps stochastic_policy
          estimate
          (process_observation torch o device (tensor_f32_to torch s device))
          (tensor_f32_to torch s device) (acc ++ [(ret, ident)]) w4
          = Ok (l, w', rest) /\
        tr = tep ++ EvInterp (cpu_numpy torch state) trees
                 :: EvReset None o :: EvGetState s :: rest
    else
      exists rest,
        episodes_loop torch env pol fuel n gamma device ps stochastic_policy
          estimate (process_observation torch o device state) state
          (acc ++ [(ret, ident)]) w3 = Ok (l, w', rest) /\
        tr = tep ++ EvInterp (cpu_numpy torch state) trees
                 :: EvReset (Some (cpu_numpy torch state)) o :: rest.
Proof.
  cbn [episodes_loop]. split.
  - intros H.
    apply mbind_Ok in H as (ret & w1 & tep & t2 & Hep & H & ->).
    destruct estimate.
    + apply mbind_Ok in H as (trees & w2 & t3 & t4 & Hint & H & ->).
      apply call_Ok in Hint as [Hint ->].
      apply mbind_Ok in H as (ident & w3 & t5 & t6 & Hid & H & ->).
      apply lift_Ok in Hid as (Hid & -> & ->).
      apply mbind_Ok in H as (o & w4 & t7 & t8 & Hrs & H & ->).
      apply call_Ok in Hrs as [Hrs ->].
      apply mbind_Ok in H as (s & w5 & t9 & t10 & Hgs & H & ->).
      apply call_Ok in Hgs as [Hgs ->].
      exists ret, w1, tep, trees, w2, ident, o, w4.
      repeat (split; [done|]). by exists s, w5, t10.
    + apply mbind_Ok in H as (trees & w2 & t3 & t4 & Hint & H & ->).
      apply call_Ok in Hint as [Hint ->].
      apply mbind_Ok in H as (ident & w3 & t5 & t6 & Hid & H & ->).
      apply lift_Ok in Hid as (Hid & -> & ->).
      apply mbind_Ok in H as (o & w4 & t7 & t8 & Hrs & H & ->).
      apply call_Ok in Hrs as [Hrs ->].
      exists ret, w1, tep, trees, w2, ident, o, w4.
      repeat (split; [done|]). by exists t8.
  - intros (ret & w1 & tep & trees & w2 & ident & o & w3
            & Hep & Hint & Hid & Hrs & H).
    unfold mbind' at 1. rewrite Hep. destruct estimate.
    + destruct H as (s & w4 & rest & Hgs & Hrest & ->).
      unfold mbind' at 1. unfold call at 1. rewrite Hint.
      unfold mbind' at 1. unfold lift at 1. rewrite Hid.
      unfold mbind' at 1. unfold call at 1. rewrite Hrs.
      unfold mbind' at 1. unfold call at 1. rewrite Hgs, Hrest. done.
    + destruct H as (rest & Hrest & ->).
      unfold mbind' at 1. unfold call at 1. rewrite Hint.
      unfold mbind' at 1. unfold lift at 1. rewrite Hid.
      unfold mbind' at 1. unfold call at 1. rewrite Hrs, Hrest. done.
Qed.


Lemma action_dict_explores (ma_obs : gmap string (agent_obs Tensor))
    (ps : list Policy) (explore : option bool) (idxs : list Z) :
  forall (acc action : gmap string Action) (w w' : world) (tr : list Ev),
  action_dict pol ma_obs ps explore idxs acc w = Ok (action, w', tr) ->
  act_explores tr = replicate (length idxs) explore.
Proof.
  induction idxs as [|i idxs IH]; intros acc action w w' tr H; cbn in H.
  - by apply mret_Ok in H as (_ & _ & ->).
  - apply mbind_Ok in H as (kv & w1 & t1 & t2 & Hkv & H & ->).
    unfold agent_action in Hkv. inv_run Hkv. subst. cbn.
    f_equal. by eapply IH.
Qed.

Lemma select_action_explores (ma_obs : gmap string (agent_obs Tensor))
    (ps : list Policy) (n : Z) (stochastic_policy : bool)
    (action : gmap string Action) (w w' : world) (tr : list Ev) :
  select_action pol ma_obs ps n stochastic_policy w = Ok (action, w', tr) ->
  act_explores tr =
    replicate (Z.to_nat n) (if stochastic_policy then None else Some false) /\
  step_dones tr = [] /\ state_queries tr = [] /\
  interp_calls tr = [] /\ reset_args tr = [].
Proof.
  intros H. pose proof (select_action_acts _ _ _ _ _ _ _ _ _ H) as Hacts.
  destruct (acts_no_step _ _ "" _ Hacts) as (_ & Hsd & Hic & Hra & _ & Hgs).
  split; [|split; [done|split; [|done]]].
  - rewrite <- range_length. unfold select_action in H.
    destruct stochastic_policy; by eapply action_dict_explores.
  - apply omap_none. eapply Forall_impl; [|exact Hgs]. by intros [].
Qed.

(** Calls made by one episode. *)
Lemma episode_call_counts (gamma : Qc) (device : string) (ps : list Policy)
    (stochastic_policy : bool) (fuel : nat) :
  forall (t : nat) (ret : Qc) (ma_obs : gmap string (agent_obs Tensor))
         (w w' : world) (ret' : Qc) (tr : list Ev),
  episode_loop torch env pol fuel gamma device ps stochastic_policy t ret
    ma_obs w = Ok (ret', w', tr) ->
  act_explores tr =
    replicate (length (step_dones tr) * Z.to_nat (num_agents env))
      (if stochastic_policy then None else Some false) /\
  S (length (state_queries tr)) = length (step_dones tr) /\
  interp_calls tr = [] /\ reset_args tr = [].
Proof.
  induction fuel as [|fuel IH]; intros t ret ma_obs w w' ret' tr H; [done|].
  apply episode_loop_S_Ok in H
    as (ma_action & w1 & acts & next_obs & reward & done & w2 & r
        & Hsel & _ & _ & H).
  apply select_action_explores in Hsel as (Hex & Hsd & Hsq & Hic & Hra).
  unfold act_explores, step_dones, state_queries, interp_calls, reset_args in *.
  destruct done.
  - destruct H as (_ & _ & ->).
    rewrite !omap_app, Hex, Hsd, Hsq, Hic, Hra. cbn.
    by rewrite Nat.add_0_r, app_nil_r.
  - destruct H as (s & w3 & rest & _ & Hrest & ->).
    apply IH in Hrest as (IHex & IHsq & IHic & IHra).
    rewrite !omap_app, Hex, Hsd, Hsq, Hic, Hra. cbn.
    rewrite IHex, IHic, IHra, <- IHsq. by rewrite <- replicate_add.
Qed.

Lemma episodes_loop_counts (gamma : Qc) (device : string) (ps : list Policy)
    (stochastic_policy estimate : bool) (fuel n : nat) :
  forall (ma_obs : gmap string (agent_obs Tensor)) (state : Tensor)
         (acc : list (Qc * Pos)) (w w' : world) (l : list (Qc * Pos))
         (tr : list Ev),
  episodes_loop torch env pol fuel n gamma device ps stochastic_policy
    estimate ma_obs state acc w = Ok (l, w', tr) ->
  length l = (length acc + n)%nat /\
  length (interp_calls tr) = n /\
  length (reset_args tr) = n /\
  act_explores tr =
    replicate (length (step_dones tr) * Z.to_nat (num_agents env))
      (if stochastic_policy then None else Some false) /\
  (length (state_queries tr) + n =
   length (step_dones tr) + (if estimate then n else 0))%nat.
Proof.
  induction n as [|n IH]; intros ma_obs state acc w w' l tr H.
  { cbn in H. apply mret_Ok in H as (-> & _ & ->). cbn.
    repeat split; try lia. by destruct estimate. }
  apply episodes_loop_S_Ok in H
    as (ret & w1 & tep & trees & w2 & ident & o & w3 & Hep & _ & _ & _ & H).
  apply episode_call_counts in Hep as (Hex & Hsq & Hic & Hra).
  unfold act_explores, step_dones, state_queries, interp_calls, reset_args in *.
  destruct estimate.
  - destruct H as (s & w4 & rest & _ & Hrest & ->).
    apply IH in Hrest as (IHl & IHi & IHr & IHex & IHsq).
    rewrite !omap_app, !length_app, Hex, Hic, Hra. cbn.
    rewrite length_app in IHl. cbn in IHl.
    rewrite IHex, <- replicate_add.
    repeat split; try lia. f_equal. lia.
  - destruct H as (rest & Hrest & ->).
    apply IH in Hrest as (IHl & IHi & IHr & IHex & IHsq).
    rewrite !omap_app, !length_app, Hex, Hic, Hra. cbn.
    rewrite length_app in IHl. cbn in IHl.
    rewrite IHex, <- replicate_add.
    repeat split; try lia. f_equal. lia.
Qed.

(** X6. A run that returns has made, for [N = max(0, num_episodes)]
    episodes and [steps] environment steps in total: [N] interpretation
    calls and [N] resets; [steps * max(0, num_agents)] policy calls, every
    one with the same [explore] argument; and [steps - N] state queries in
    fixed-start mode, [steps] in sampled-start mode. *)
Theorem run_episodes_call_counts (fuel : nat) (num_episodes : Z) (gamma : Qc)
    (ma_obs : gmap string (agent_obs Tensor)) (state : Tensor)
    (device model_path params_path : string)
    (shared_policy stochastic_policy estimate : bool) (w w' : world)
    (l : list (Qc * Pos)) (tr : list Ev) :
  run_episodes torch env pol fuel num_episodes gamma ma_obs state device
    model_path params_path shared_policy stochastic_policy estimate w
    = Ok (l, w', tr) ->
  let N := Z.to_nat num_episodes in
  let steps := length (step_dones tr) in
  length l = N /\
  length (interp_calls tr) = N /\
  length (reset_args tr) = N /\
  act_explores tr =
    replicate (steps * Z.to_nat (num_agents env))
      (if stochastic_policy then None else Some false) /\
  (length (state_queries tr) + N = steps + (if estimate then N else 0))%nat.
Proof.
  intros H. unfold run_episodes in H. by apply episodes_loop_counts in H.
Qed.


Lemma reset_followups_no_reset (pre rest : list Ev) :
  Forall (fun e => is_reset e = false) pre ->
  reset_followups (pre ++ rest) = reset_followups rest.
Proof. induction 1 as [|e pre He _ IH]; [done|]. cbn. by rewrite He. Qed.

Lemma run_shape_opening (device : string) (explore : option bool)
    (estimate : bool) (n : nat) (ma_obs : gmap string (agent_obs Tensor))
    (state : Tensor) (tr : list Ev) :
  run_shape torch env device explore estimate n ma_obs state tr ->
  Forall (fun t => exists k o, ma_obs !! k = Some o /\ ao_state o = t)
    (opening_states tr).
Proof.
  destruct 1 as [ma_obs state
                |n ma_obs state tep trees o rest _ Hshape _
                |n ma_obs state tep trees o s rest _ Hshape _];
    [constructor|by eapply episode_shape_opening..].
Qed.

Lemma run_shape_sampled_followups (device : string) (explore : option bool)
    (n : nat) (ma_obs : gmap string (agent_obs Tensor)) (state : Tensor)
    (tr : list Ev) :
  run_shape torch env device explore true n ma_obs state tr ->
  reset_args tr = replicate n None /\
  Forall (fun x : option Ev * list Tensor =>
            exists s, x.1 = Some (EvGetState s) /\
                      Forall (fun t => t = tensor_f32_to torch s device) x.2)
    (reset_followups tr).
Proof.
  induction 1 as [ma_obs state
                 |n ma_obs state tep trees o rest [=] _ _ _
                 |n ma_obs state tep trees o s rest _ Hshape Hrest [IHr IHf]];
    [done|].
  pose proof (episode_shape_facts _ _ _ _ _ _ Hshape) as (_ & Hra & Hnr & _).
  rewrite reset_followups_no_reset by done.
  unfold reset_args in *. rewrite omap_app, Hra. cbn.
  rewrite IHr. split; [done|]. constructor; [|done].
  exists s. split; [done|]. cbn.
  eapply Forall_impl; [|exact (run_shape_opening _ _ _ _ _ _ _ Hrest)].
  intros t (k & o' & Ho' & <-). by eapply process_observation_state.
Qed.

(** X7. In sampled-start mode every [env.reset] of a run that returns
    is called without a state, is followed at once by a state query, and
    the observations handed to the policies from there to the next step
    carry the answer of that query (as a float32 tensor on the device). *)
Theorem sampled_start_requeries_state (fuel : nat) (num_episodes : Z)
    (gamma : Qc) (ma_obs : gmap string (agent_obs Tensor)) (state : Tensor)
    (device model_path params_path : string)
    (shared_policy stochastic_policy : bool) (w w' : world)
    (l : list (Qc * Pos)) (tr : list Ev) :
  run_episodes torch env pol fuel num_episodes gamma ma_obs state device
    model_path params_path shared_policy stochastic_policy true w
    = Ok (l, w', tr) ->
  reset_args tr = replicate (Z.to_nat num_episodes) None /\
  Forall (fun x : option Ev * list Tensor =>
            exists s, x.1 = Some (EvGetState s) /\
                      Forall (fun t => t = tensor_f32_to torch s device) x.2)
    (reset_followups tr).
Proof.
  intros H. unfold run_episodes in H. apply episodes_loop_shape in H.
  by eapply run_shape_sampled_followups.
Qed.

Lemma run_shape_brackets (device : string) (explore : option bool)
    (estimate : bool) (n : nat) (ma_obs : gmap string (agent_obs Tensor))
    (state : Tensor) (tr : list Ev) :
  run_shape torch env device explore estimate (S n) ma_obs state tr ->
  (exists e, head tr = Some e /\ is_act e || is_step e = true) /\
  (exists e, list.last tr = Some e /\
     if estimate then is_get_state e = true else is_reset e = true).
Proof.
  remember (S n) as m eqn:Hm. intros H. revert n Hm.
  induction H as [ma_obs state
                 |m ma_obs state tep trees o rest -> Hshape Hrest IH
                 |m ma_obs state tep trees o s rest -> Hshape Hrest IH];
    intros n Hm; [done| |].
  - split; [by eapply episode_shape_opening|].
    rewrite last_app_cons, last_cons_cons. destruct m as [|m].
    + inversion Hrest; subst. by eexists.
    + destruct (IH m eq_refl) as (_ & e & He & Hk).
      exists e. rewrite last_cons, He. done.
  - split; [by eapply episode_shape_opening|].
    rewrite last_app_cons, !last_cons_cons. destruct m as [|m].
    + inversion Hrest; subst. by eexists.
    + destruct (IH m eq_refl) as (_ & e & He & Hk).
      exists e. rewrite last_cons, He. done.
Qed.

(** X8. A run of at least one episode that returns does not reset or
    query the environment before the first episode (its first call is a
    policy call or, without agents, the first step), and its last call is
    the reset after the last episode, in sampled-start mode the state
    query after that reset. *)
Theorem run_episodes_first_and_last_call (fuel : nat) (num_episodes : Z)
    (gamma : Qc) (ma_obs : gmap string (agent_obs Tensor)) (state : Tensor)
    (device model_path params_path : string)
    (shared_policy stochastic_policy estimate : bool) (w w' : world)
    (l : list (Qc * Pos)) (tr : list Ev) :
  1 <= num_episodes ->
  run_episodes torch env pol fuel num_episodes gamma ma_obs state device
    model_path params_path shared_policy stochastic_policy estimate w
    = Ok (l, w', tr) ->
  (exists e, head tr = Some e /\ is_act e || is_step e = true) /\
  (exists e, list.last tr = Some e /\
     if estimate then is_get_state e = true else is_reset e = true).
Proof.
  intros HN H. unfold run_episodes in H. apply episodes_loop_shape in H.
  destruct (Z.to_nat num_episodes) as [|n] eqn:Hn; [lia|].
  by eapply run_shape_brackets.
Qed.

(** X9. For every integer fire size the identifier is read at a
    non-negative index ([0] for an even size, [(s^2-1)//2] for an odd
    one): the rule returns the cell at that index when the list is long
    enough and raises [IndexError] with that index otherwise; it never
    counts from the end of the list. *)
Theorem initial_state_identifier_bounds (trees : list Pos) :
  let idx := identifier_index (initial_fire_size env) in
  0 <= idx /\
  initial_state_identifier env trees =
  match trees !! Z.to_nat idx with
  | Some cell => Ok cell
  | None => Raise (IndexError idx)
  end.
Proof.
  unfold identifier_index, initial_state_identifier.
  generalize (initial_fire_size env). intros s. cbn zeta.
  assert (Hidx : forall i l, 0 <= i ->
    @py_index Pos l i =
    match l !! Z.to_nat i with Some x => Ok x | None => Raise (IndexError i) end).
  { intros i l Hi. unfold py_index. case_bool_decide as H1; [done|].
    rewrite bool_decide_eq_false_2 by lia.
    by rewrite (lookup_ge_None_2 l (Z.to_nat i)) by lia. }
  case_bool_decide as Hs.
  - split; [done|]. by apply Hidx.
  - assert (0 <= (s ^ 2 - 1) `div` 2).
    { apply Z.div_pos; [|lia]. rewrite Z.pow_2_r.
      assert (s <> 0) by (by intros ->). nia. }
    split; [done|]. by apply Hidx.
Qed.





Lemma episodes_loop_prefix (gamma : Qc) (device : string) (ps : list Policy)
    (stochastic_policy estimate : bool) (fuel k : nat) (n : nat) :
  forall (ma_obs : gmap string (agent_obs Tensor)) (state : Tensor)
         (acc : list (Qc * Pos)) (w w2 : world) (l2 : list (Qc * Pos))
         (tr2 : list Ev),
  episodes_loop torch env pol fuel (n + k) gamma device ps stochastic_policy
    estimate ma_obs state acc w = Ok (l2, w2, tr2) ->
  exists l1 w1 tr1,
    episodes_loop torch env pol fuel n gamma device ps stochastic_policy
      estimate ma_obs state acc w = Ok (l1, w1, tr1) /\
    l1 `prefix_of` l2 /\ tr1 `prefix_of` tr2.
Proof.
  induction n as [|n IH]; intros ma_obs state acc w w2 l2 tr2 H.
  - exists acc, w, []. split; [done|]. split; [|apply prefix_nil].
    apply (episodes_loop_pieces _ _ _ _ _ _ _ _ state _ _ _ _ _ []) in H
      as (recs & -> & _); [|by left].
    by exists recs.
  - cbn [Nat.add] in H. apply episodes_loop_S_Ok in H
      as (ret & w1 & tep & trees & w3 & ident & o & w4
          & Hep & Hint & Hid & Hrs & H).
    destruct estimate.
    + destruct H as (s & w5 & rest & Hgs & Hrest & ->).
      apply IH in Hrest as (l1 & w1' & tr1 & Hrun & Hpl & Hpt).
      exists l1, w1',
        (tep ++ EvInterp (cpu_numpy torch state) trees
             :: EvReset None o :: EvGetState s :: tr1).
      split; [|split; [done|]].
      * apply episodes_loop_S_Ok.
        exists ret, w1, tep, trees, w3, ident, o, w4.
        repeat (split; [done|]). by exists s, w5, tr1.
      * apply prefix_app. by do 3 apply prefix_cons.
    + destruct H as (rest & Hrest & ->).
      apply IH in Hrest as (l1 & w1' & tr1 & Hrun & Hpl & Hpt).
      exists l1, w1',
        (tep ++ EvInterp (cpu_numpy torch state) trees
             :: EvReset (Some (cpu_numpy torch state)) o :: tr1).
      split; [|split; [done|]].
      * apply episodes_loop_S_Ok.
        exists ret, w1, tep, trees, w3, ident, o, w4.
        repeat (split; [done|]). by exists tr1.
      * apply prefix_app. by do 2 apply prefix_cons.
Qed.

(** X11. If a run of [m] episodes returns, the run of [n <= m]
    episodes from the same world returns the first [n] records of it, and
    its calls are an initial part of the calls of the longer run. *)
Theorem run_episodes_prefix (fuel : nat) (n m : Z) (gamma : Qc)
    (ma_obs : gmap string (agent_obs Tensor)) (state : Tensor)
    (device model_path params_path : string)
    (shared_policy stochastic_policy estimate : bool) (w w2 : world)
    (l2 : list (Qc * Pos)) (tr2 : list Ev) :
  0 <= n <= m ->
  run_episodes torch env pol fuel m gamma ma_obs state device
    model_path params_path shared_policy stochastic_policy estimate w
    = Ok (l2, w2, tr2) ->
  exists w1 tr1,
    run_episodes torch env pol fuel n gamma ma_obs state device
      model_path params_path shared_policy stochastic_policy estimate w
      = Ok (take (Z.to_nat n) l2, w1, tr1) /\
    tr1 `prefix_of` tr2.
Proof.
  intros Hnm H. unfold run_episodes in *.
  replace (Z.to_nat m) with (Z.to_nat n + Z.to_nat (m - n))%nat in H by lia.
  apply episodes_loop_prefix in H as (l1 & w1 & tr1 & Hrun & [rest ->] & Hpt).
  exists w1, tr1. split; [|done].
  pose proof (episodes_loop_counts _ _ _ _ _ _ _ _ _ _ _ _ _ _ Hrun)
    as (Hlen & _).
  cbn in Hlen. rewrite Hrun. do 3 f_equal.
  by rewrite <- Hlen, take_app_length.
Qed.

Lemma episodes_loop_fixed_identifiers (gamma : Qc) (device : string)
    (ps : list Policy) (stochastic_policy : bool) (fuel n : nat)
    (state : Tensor) :
  forall (ma_obs : gmap string (agent_obs Tensor)) (acc : list (Qc * Pos))
         (w w' : world) (l : list (Qc * Pos)) (tr : list Ev),
  episodes_loop torch env pol fuel n gamma device ps stochastic_policy false
    ma_obs state acc w = Ok (l, w', tr) ->
  exists recs,
    l = acc ++ recs /\
    Forall (fun r : Qc * Pos => exists wx,
              initial_state_identifier env
                (env_get_state_interpretation env (cpu_numpy torch state) wx).1
              = Ok r.2) recs.
Proof.
  induction n as [|n IH]; intros ma_obs acc w w' l tr H.
  - cbn in H. apply mret_Ok in H as (-> & _ & _). exists [].
    by rewrite app_nil_r.
  - apply episodes_loop_S_Ok in H
      as (ret & w1 & tep & trees & w3 & ident & o & w4
          & _ & Hint & Hid & _ & rest & Hrest & _).
    apply IH in Hrest as (recs & -> & Hall).
    exists ((ret, ident) :: recs). split; [by rewrite <- app_assoc|].
    constructor; [|done]. exists w1. by rewrite Hint.
Qed.

(** X12. In fixed-start mode, when the interpretation of a raw state
    does not depend on what the environment has done since, every record
    of a run that returns carries the identifier of the state passed to
    the runner; so all records carry the same identifier. *)
Theorem fixed_start_single_identifier (fuel : nat) (num_episodes : Z)
    (gamma : Qc) (ma_obs : gmap string (agent_obs Tensor)) (state : Tensor)
    (device model_path params_path : string)
    (shared_policy stochastic_policy : bool) (w w' : world)
    (l : list (Qc * Pos)) (tr : list Ev) :
  (forall raw w1 w2,
     (env_get_state_interpretation env raw w1).1 =
     (env_get_state_interpretation env raw w2).1) ->
  run_episodes torch env pol fuel num_episodes gamma ma_obs state device
    model_path params_path shared_policy stochastic_policy false w
    = Ok (l, w', tr) ->
  (forall r, r ∈ l ->
     initial_state_identifier env
       (env_get_state_interpretation env (cpu_numpy torch state) w).1
     = Ok r.2) /\
  (forall r1 r2, r1 ∈ l -> r2 ∈ l -> r1.2 = r2.2).
Proof.
  intros Hpure H. unfold run_episodes in H.
  apply episodes_loop_fixed_identifiers in H as (recs & -> & Hall).
  cbn [app].
  assert (Hone : forall r, r ∈ recs ->
    initial_state_identifier env
      (env_get_state_interpretation env (cpu_numpy torch state) w).1 = Ok r.2).
  { intros r Hr. rewrite list.Forall_forall in Hall.
    destruct (Hall r Hr) as [wx Hwx]. by rewrite (Hpure _ w wx). }
  split; [done|].
  intros r1 r2 H1%Hone H2%Hone. rewrite H1 in H2. by injection H2.
Qed.

End RunnerMore.

Section ExceptionsMore.
Context {world ndarray Tensor Action Pos Policy : Type}.
Variable torch : Torch ndarray Tensor.
Variable env : Environment world ndarray Action Pos.
Variable pol : Policies world Tensor Action Policy.

Local Abbreviation Ev := (event ndarray Tensor Action Pos Policy).






End ExceptionsMore.

Section DataflowMore.
Context {world ndarray Tensor Action Pos Policy : Type}.
Variable torch : Torch ndarray Tensor.
Variable env : Environment world ndarray Action Pos.
Variable pol : Policies world Tensor Action Policy.

Local Abbreviation Ev := (event ndarray Tensor Action Pos Policy).

Lemma acts_opening (ma_obs : gmap string (agent_obs Tensor))
    (explore : option bool) (acts : list Ev) (e : Ev) (more : list Ev) :
  Forall (act_on ma_obs explore) acts -> is_step e = true ->
  step_followups (acts ++ e :: more) = step_followups (e :: more) /\
  Forall (fun io : Z * agent_obs Tensor => ma_obs !! fstr io.1 = Some io.2)
    (opening_acts (acts ++ e :: more)).
Proof.
  intros Hacts He.
  induction Hacts as [|e' acts (i & p & o & a & -> & Ho) _ [IH1 IH2]].
  - split; [done|]. by destruct e.
  - split; [done|]. cbn. by constructor.
Qed.

Lemma episode_shape_followups (device : string) (explore : option bool)
    (ma_obs : gmap string (agent_obs Tensor)) (tr : list Ev) :
  episode_shape torch env device explore ma_obs tr ->
  forall rest,
  Forall (fresh_followup torch device) (step_followups rest) ->
  Forall (fresh_followup torch device) (step_followups (tr ++ rest)) /\
  Forall (fun io : Z * agent_obs Tensor => ma_obs !! fstr io.1 = Some io.2)
    (opening_acts (tr ++ rest)).
Proof.
  induction 1 as [ma_obs acts a o rw r Hacts Hr
                 |ma_obs acts a o rw r s tr Hacts Hr _ IH]; intros rest Hrest.
  - rewrite <- app_assoc. cbn [app].
    destruct (acts_opening _ _ _ (EvStep a o rw true) rest Hacts eq_refl)
      as [-> Hop].
    split; [done|exact Hop].
  - rewrite <- app_assoc. cbn [app].
    destruct (acts_opening _ _ _ (EvStep a o rw false)
                (EvGetState s :: tr ++ rest) Hacts eq_refl) as [-> Hop].
    split; [|exact Hop].
    destruct (IH rest Hrest) as [IH1 IH2].
    cbn [step_followups head opening_acts]. constructor; [|done].
    exists s. split; [done|]. cbn [fst snd].
    eapply Forall_impl; [|exact IH2].
    intros [i o'] Ho'. cbn [fst snd] in *.
    unfold process_observation in Ho'. rewrite lookup_fmap in Ho'.
    destruct (o !! fstr i) as [x|]; [|done]. injection Ho' as <-. by exists x.
Qed.

Lemma run_shape_followups (device : string) (explore : option bool)
    (estimate : bool) (n : nat) (ma_obs : gmap string (agent_obs Tensor))
    (state : Tensor) (tr : list Ev) :
  run_shape torch env device explore estimate n ma_obs state tr ->
  Forall (fresh_followup torch device) (step_followups tr).
Proof.
  induction 1 as [ma_obs state
                 |n ma_obs state tep trees o rest _ Hshape _ IH
                 |n ma_obs state tep trees o s rest _ Hshape _ IH];
    [constructor|..].
  - by apply (episode_shape_followups _ _ _ _ Hshape).
  - by apply (episode_shape_followups _ _ _ _ Hshape).
Qed.

(** X14. In a run that returns, every step that does not report done
    is followed at once by a state query, and the policy calls from there
    to the next step receive, for agent [i], the observation that this
    step returned under [str(i)] (as a tensor on the device) together with
    the answer of that query. *)
Theorem policies_see_latest_observation (fuel : nat) (num_episodes : Z)
    (gamma : Qc) (ma_obs : gmap string (agent_obs Tensor)) (state : Tensor)
    (device model_path params_path : string)
    (shared_policy stochastic_policy estimate : bool) (w w' : world)
    (l : list (Qc * Pos)) (tr : list Ev) :
  run_episodes torch env pol fuel num_episodes gamma ma_obs state device
    model_path params_path shared_policy stochastic_policy estimate w
    = Ok (l, w', tr) ->
  Forall (fresh_followup torch device) (step_followups tr).
Proof.
  intros H. unfold run_episodes in H. apply episodes_loop_shape in H.
  by eapply run_shape_followups.
Qed.

End DataflowMore.

Section AdapterMore.
Context {ndarray Tensor : Type}.
Variable torch : Torch ndarray Tensor.

Local Abbreviation dict := (gmap string (Heap.pyval ndarray Tensor)).
Local Abbreviation store := (gmap positive dict).

(** The loop over distinct keys of the dictionary raises [TypeError] as
    soon as one of them holds a marshaled entry. *)
Lemma process_observation_loop_TypeError (l : positive) (device : string)
    (state : Tensor) (st : store) (keys : list string) :
  forall m : dict,
  NoDup keys ->
  (forall k, k ∈ keys -> is_Some (m !! k)) ->
  (exists k e, k ∈ keys /\ m !! k = Some (Heap.VEntry e)) ->
  Heap.process_observation_loop torch keys l device state (<[l := m]> st)
    = Raise TypeError.
Proof.
  induction keys as [|key keys IH]; intros m Hnd Hdom (k & e & Hk & He).
  { by apply elem_of_nil in Hk. }
  apply list.NoDup_cons in Hnd as [Hkey Hnd].
  cbn [Heap.process_observation_loop]. cbv zeta.
  rewrite lookup_insert_eq. cbn [default from_option id]. unfold py_getitem.
  destruct (Hdom key) as [v Hv]; [left|]. rewrite Hv.
  destruct v as [a|e']; [|done]. cbn [Heap.marshal_entry].
  rewrite insert_insert_eq.
  assert (k <> key) by (intros ->; congruence).
  apply elem_of_cons in Hk as [?|Hk]; [done|].
  apply IH; [done| |].
  - intros k' Hk'. rewrite lookup_insert_ne by (by intros ->). apply Hdom. by right.
  - exists k, e. by rewrite lookup_insert_ne.
Qed.

Lemma process_observation_marshaled_raises (ma_obs : positive)
    (device : string) (state : Tensor) (st : store) (d : dict)
    (key : string) (e : agent_obs Tensor) :
  st !! ma_obs = Some d ->
  d !! key = Some (Heap.VEntry e) ->
  Heap.process_observation torch ma_obs device state st = Raise TypeError.
Proof.
  intros Hst Hd. unfold Heap.process_observation. rewrite Hst.
  cbn [default from_option id].
  rewrite <- (insert_id st ma_obs d Hst) at 1.
  rewrite process_observation_loop_TypeError; [done|..].
  - apply NoDup_fst_map_to_list.
  - intros k ((k' & v) & -> & Hin)%list_elem_of_fmap.
    apply elem_of_map_to_list in Hin. by eexists.
  - exists key, e. split; [|done].
    apply list_elem_of_fmap. exists (key, Heap.VEntry e). split; [done|].
    by apply elem_of_map_to_list.
Qed.

(** X15. On a dictionary in which some entry is already marshaled the
    adapter raises [TypeError] ([torch.from_numpy] of a dictionary). *)
Theorem process_observation_rejects_marshaled (ma_obs : positive)
    (device : string) (state : Tensor) (st : store) (d : dict)
    (key : string) (e : agent_obs Tensor) :
  st !! ma_obs = Some d ->
  d !! key = Some (Heap.VEntry e) ->
  Heap.process_observation torch ma_obs device state st = Raise TypeError.
Proof. apply process_observation_marshaled_raises. Qed.

(** X16. The adapter cannot be applied twice: after a call on a
    non-empty dictionary of raw arrays, any further call on the same
    reference raises [TypeError]. *)
Theorem process_observation_not_repeatable (ma_obs : positive)
    (obs : gmap string ndarray) (device : string) (state : Tensor)
    (st : store) :
  st !! ma_obs = Some (Heap.VArray <$> obs) ->
  obs <> ∅ ->
  exists st1,
    Heap.process_observation torch ma_obs device state st = Ok (ma_obs, st1) /\
    forall device2 state2,
      Heap.process_observation torch ma_obs device2 state2 st1 = Raise TypeError.
Proof.
  intros Hst Hne.
  destruct (process_observation_loop_spec torch ma_obs device state st
              (map_to_list (Heap.VArray (Tensor:=Tensor) <$> obs)).*1
              (Heap.VArray <$> obs)) as (m' & Hrun & Hm').
  { apply NoDup_fst_map_to_list. }
  { intros k ((k' & v) & -> & Hin)%list_elem_of_fmap.
    apply elem_of_map_to_list in Hin. cbn.
    rewrite lookup_fmap in Hin |- *. destruct (obs !! k') as [a|]; [|done].
    by exists a. }
  rewrite (insert_id st ma_obs _ Hst) in Hrun.
  exists (<[ma_obs := m']> st). split.
  - unfold Heap.process_observation. rewrite Hst. cbn [default from_option id].
    by rewrite Hrun.
  - intros device2 state2.
    apply map_choose in Hne as (k & a & Hk).
    eapply (process_observation_marshaled_raises _ _ _ _ m' k).
    + apply lookup_insert_eq.
    + rewrite Hm'. rewrite lookup_fmap, Hk. cbn.
      rewrite decide_True; [done|].
      apply list_elem_of_fmap. exists (k, Heap.VArray a). split; [done|].
      apply elem_of_map_to_list. by rewrite lookup_fmap, Hk.
Qed.

End AdapterMore.

Section NestedFacts.
Context {ndarray Tensor : Type}.
Variable torch : Torch ndarray Tensor.
Variable numpy : Numpy ndarray Tensor.

Local Abbreviation inner := (gmap string (Nested.leaf ndarray Tensor)).
Local Abbreviation outers := (gmap positive (gmap string positive)).
Local Abbreviation inners := (gmap positive inner).

Lemma obs_to_torch_inner_spec (obs : positive) (device : string)
    (ins : inners) (keys : list string) :
  forall m : inner,
  NoDup keys ->
  (forall k, k ∈ keys -> exists a, m !! k = Some (Nested.LArray a)) ->
  exists m' : inner,
    Nested.obs_to_torch_inner torch numpy keys obs device (<[obs := m]> ins)
      = Ok (<[obs := m']> ins) /\
    forall k,
      m' !! k =
        if decide (k ∈ keys) then
          match m !! k with
          | Some (Nested.LArray a) => Some (Nested.batched torch numpy device a)
          | x => x
          end
        else m !! k.
Proof.
  induction keys as [|key keys IH]; intros m Hnd Hm.
  - exists m. split; [done|]. intros k. case_decide as Hk; [|done].
    by apply elem_of_nil in Hk.
  - apply list.NoDup_cons in Hnd as [Hkey Hnd].
    destruct (Hm key) as [a Ha]; [left|].
    destruct (IH (<[key := Nested.batched torch numpy device a]> m) Hnd) as (m' & Hrun & Hm').
    { intros k Hk. destruct (Hm k) as [a' Ha']; [by right|]. exists a'.
      rewrite lookup_insert_ne; [done|]. by intros ->. }
    exists m'. split.
    + cbn [Nested.obs_to_torch_inner]. cbv zeta.
      rewrite lookup_insert_eq. cbn [default from_option id].
      unfold py_getitem. rewrite Ha. cbn [Nested.to_batched_tensor].
      by rewrite insert_insert_eq.
    + intros k. rewrite Hm'. destruct (decide (k = key)) as [->|Hne].
      * rewrite (decide_False (P := key ∈ keys)) by done.
        rewrite (decide_True (P := key ∈ key :: keys)) by left.
        by rewrite lookup_insert_eq, Ha.
      * rewrite lookup_insert_ne by done.
        case_decide as H1; case_decide as H2; try done.
        -- exfalso. apply H2. by right.
        -- apply elem_of_cons in H2 as [?|?]; done.
Qed.

Lemma obs_to_torch_inner_arrays (obs : positive) (device : string)
    (ins : inners) (arrs : gmap string ndarray) :
  ins !! obs = Some (Nested.LArray <$> arrs) ->
  Nested.obs_to_torch_inner torch numpy
    (map_to_list (Nested.LArray (Tensor:=Tensor) <$> arrs)).*1 obs device ins
  = Ok (<[obs := Nested.batched torch numpy device <$> arrs]> ins).
Proof.
  intros Hins.
  destruct (obs_to_torch_inner_spec obs device ins
              (map_to_list (Nested.LArray (Tensor:=Tensor) <$> arrs)).*1
              (Nested.LArray <$> arrs)) as (m' & Hrun & Hm').
  { apply NoDup_fst_map_to_list. }
  { intros k ((k' & v) & -> & Hin)%list_elem_of_fmap.
    apply elem_of_map_to_list in Hin. cbn.
    rewrite lookup_fmap in Hin |- *. destruct (arrs !! k') as [a|]; [|done].
    by exists a. }
  rewrite (insert_id ins obs _ Hins) in Hrun. rewrite Hrun.
  do 2 f_equal. apply map_eq. intros k. rewrite Hm', !lookup_fmap.
  destruct (arrs !! k) as [a|] eqn:Hk; cbn; [|by case_decide].
  rewrite decide_True; [done|].
  apply list_elem_of_fmap. exists (k, Nested.LArray a). split; [done|].
  apply elem_of_map_to_list. by rewrite lookup_fmap, Hk.
Qed.


Lemma obs_to_torch_loop_spec (ma_obs : positive) (device : string)
    (outs : outers) (d : gmap string positive) (keys : list string) :
  outs !! ma_obs = Some d ->
  (forall k1 k2 r, d !! k1 = Some r -> d !! k2 = Some r -> k1 = k2) ->
  forall ins : inners,
  NoDup keys ->
  (forall k, k ∈ keys ->
     exists r arrs, d !! k = Some r /\ ins !! r = Some (Nested.LArray <$> arrs)) ->
  exists ins' : inners,
    Nested.obs_to_torch_loop torch numpy keys ma_obs device outs ins
      = Ok (outs, ins') /\
    (forall k r arrs,
       k ∈ keys -> d !! k = Some r ->
       ins !! r = Some (Nested.LArray <$> arrs) ->
       ins' !! r = Some (Nested.batched torch numpy device <$> arrs)) /\
    (forall r, (forall k, k ∈ keys -> d !! k <> Some r) -> ins' !! r = ins !! r).
Proof.
  intros Houts Hinj. induction keys as [|key keys IH]; intros ins Hnd Hkeys.
  - exists ins. split; [done|]. split; [|done].
    intros k r arrs Hk. by apply elem_of_nil in Hk.
  - apply list.NoDup_cons in Hnd as [Hkey Hnd].
    destruct (Hkeys key) as (r & arrs & Hd & Hins); [left|].
    assert (Hother : forall k, k ∈ keys -> d !! k <> Some r).
    { intros k Hk Hdk. assert (k = key) by (by eapply Hinj). by subst. }
    destruct (IH (<[r := Nested.batched torch numpy device <$> arrs]> ins) Hnd)
      as (ins' & Hrun & Hconv & Hframe).
    { intros k Hk. destruct (Hkeys k) as (r' & arrs' & Hd' & Hins'); [by right|].
      exists r', arrs'. split; [done|].
      rewrite lookup_insert_ne; [done|]. intros <-. by apply (Hother k). }
    exists ins'. split; [|split].
    + cbn [Nested.obs_to_torch_loop]. cbv zeta.
      rewrite Houts. cbn [default from_option id].
      unfold py_getitem. rewrite Hd, Hins. cbn [default from_option id].
      rewrite obs_to_torch_inner_arrays by done.
      by rewrite (insert_id d key r Hd), (insert_id outs ma_obs d Houts).
    + intros k r' arrs' Hk Hd' Hins'.
      apply elem_of_cons in Hk as [->|Hk].
      * rewrite Hd in Hd'. injection Hd' as <-.
        rewrite Hframe by done. rewrite lookup_insert_eq.
        rewrite Hins in Hins'. injection Hins' as Heq.
        f_equal. apply map_eq. intros k. rewrite !lookup_fmap.
        apply (f_equal (fun m => m !! k)) in Heq. rewrite !lookup_fmap in Heq.
        destruct (arrs !! k), (arrs' !! k); naive_solver.
      * eapply Hconv; [done..|].
        rewrite lookup_insert_ne; [done|]. intros <-. by apply (Hother k).
    + intros r' Hr'. rewrite Hframe.
      * rewrite lookup_insert_ne; [done|]. intros <-.
        by apply (Hr' key); [left|].
      * intros k Hk. apply Hr'. by right.
Qed.

(** X17. Called on a reference to a dictionary whose agents refer to
    pairwise distinct inner dictionaries of arrays, [obs_to_torch] returns
    the same reference and leaves the outer dictionary as it was; every
    inner dictionary an agent refers to holds, under the same keys, the
    batched tensors of its arrays, and no other inner dictionary
    changes. *)
Theorem obs_to_torch_in_place (ma_obs : positive) (device : string)
    (outs : outers) (ins : inners) (d : gmap string positive) :
  outs !! ma_obs = Some d ->
  (forall k1 k2 r, d !! k1 = Some r -> d !! k2 = Some r -> k1 = k2) ->
  (forall k r, d !! k = Some r ->
     exists arrs, ins !! r = Some (Nested.LArray <$> arrs)) ->
  exists ins' : inners,
    Nested.obs_to_torch torch numpy ma_obs device outs ins
      = Ok (ma_obs, outs, ins') /\
    (forall k r arrs,
       d !! k = Some r -> ins !! r = Some (Nested.LArray <$> arrs) ->
       ins' !! r = Some (Nested.batched torch numpy device <$> arrs)) /\
    (forall r, (forall k, d !! k <> Some r) -> ins' !! r = ins !! r).
Proof.
  intros Houts Hinj Harr.
  destruct (obs_to_torch_loop_spec ma_obs device outs d (map_to_list d).*1
              Houts Hinj ins) as (ins' & Hrun & Hconv & Hframe).
  { apply NoDup_fst_map_to_list. }
  { intros k ((k' & r) & -> & Hin)%list_elem_of_fmap.
    apply elem_of_map_to_list in Hin. cbn.
    destruct (Harr k' r Hin) as [arrs Hins]. by exists r, arrs. }
  exists ins'. split; [|split].
  - unfold Nested.obs_to_torch. rewrite Houts. cbn [default from_option id].
    by rewrite Hrun.
  - intros k r arrs Hd Hins. apply (Hconv k r arrs); [|done..].
    apply list_elem_of_fmap. exists (k, r). split; [done|].
    by apply elem_of_map_to_list.
  - intros r Hr. apply Hframe. intros k _. apply Hr.
Qed.

End NestedFacts.

(** ** Instances in the concrete world *)

Lemma select_action_returns_iff_witness :
  exists action w' tr,
    select_action (ndarray:=nat) (Pos:=Z * Z) Toy.pol Toy.start_obs
      Toy.policies 2 true Toy.start = Ok (action, w', tr).
Proof.
  apply (select_action_returns_iff (ndarray:=nat) (Pos:=Z * Z) Toy.pol
           Toy.start_obs Toy.policies 2 true Toy.start).
  split.
  - vm_compute. lia.
  - intros i Hi. assert (i = 0 \/ i = 1) as [-> | ->] by lia;
      vm_compute; eauto.
Defined.

Lemma select_action_missing_observation_witness :
  select_action (ndarray:=nat) (Pos:=Z * Z) Toy.pol ToyMore.obs_agent0_only
    Toy.policies 2 false Toy.start = Raise (KeyError "1").
Proof.
  apply (select_action_missing_observation (ndarray:=nat) (Pos:=Z * Z) Toy.pol
           ToyMore.obs_agent0_only Toy.policies 2 false Toy.start 1).
  - vm_compute. lia.
  - lia.
  - reflexivity.
  - intros j Hj. assert (j = 0) as -> by lia. vm_compute. eauto.
Defined.

Lemma select_action_missing_policy_witness :
  select_action (ndarray:=nat) (Pos:=Z * Z) Toy.pol Toy.start_obs
    ["shared_policy"] 2 false Toy.start = Raise (IndexError 1).
Proof.
  apply (select_action_missing_policy (ndarray:=nat) (Pos:=Z * Z) Toy.pol
           Toy.start_obs ["shared_policy"] 2 false Toy.start).
  - cbn. lia.
  - intros j Hj. cbn in Hj. assert (j = 0) as -> by lia. vm_compute. eauto.
Defined.

Lemma select_action_frame_witness :
  select_action (ndarray:=nat) (Pos:=Z * Z) Toy.pol ToyMore.obs_extra
    (Toy.policies ++ ["other"]) 2 false Toy.start
  = select_action Toy.pol Toy.start_obs Toy.policies 2 false Toy.start.
Proof.
  apply (select_action_frame (ndarray:=nat) (Pos:=Z * Z) Toy.pol).
  - intros i Hi. assert (i = 0 \/ i = 1) as [-> | ->] by lia; reflexivity.
  - intros i Hi. destruct i as [|[|i]]; [reflexivity..|lia].
Defined.

Lemma select_action_loaded_policies_witness :
  exists i, 0 <= i < 2 /\
    (∅ : gmap string (agent_obs nat)) !! fstr i = None /\
    KeyError "0" = KeyError (fstr i).
Proof.
  apply (select_action_loaded_policies (ndarray:=nat) (Pos:=Z * Z) Toy.pol
           ∅ "model" "params" true 2 false Toy.start (KeyError "0")).
  reflexivity.
Defined.

Lemma run_episodes_call_counts_witness :
  exists l w' tr,
    Toy.run 2 true = Ok (l, w', tr) /\
    length l = 2%nat /\
    (length (state_queries tr) + 2 = length (step_dones tr) + 2)%nat.
Proof.
  destruct (Toy.run 2 true) as [[[l w'] tr]| |] eqn:E.
  - exists l, w', tr. split; [reflexivity|].
    destruct (run_episodes_call_counts Toy.torch Toy.env Toy.pol
                _ _ _ _ _ _ _ _ _ _ _ _ _ _ _ E) as (H1 & _ & _ & _ & H5).
    split; [exact H1|exact H5].
  - vm_compute in E. discriminate.
  - vm_compute in E. discriminate.
Defined.

Lemma sampled_start_requeries_state_witness :
  exists l w' tr,
    Toy.run 2 true = Ok (l, w', tr) /\ reset_args tr = [None; None].
Proof.
  destruct (Toy.run 2 true) as [[[l w'] tr]| |] eqn:E.
  - exists l, w', tr. split; [reflexivity|].
    exact (proj1 (sampled_start_requeries_state Toy.torch Toy.env Toy.pol
                    _ _ _ _ _ _ _ _ _ _ _ _ _ _ E)).
  - vm_compute in E. discriminate.
  - vm_compute in E. discriminate.
Defined.

Lemma run_episodes_first_and_last_call_witness :
  exists l w' tr,
    Toy.run 2 false = Ok (l, w', tr) /\
    exists e, list.last tr = Some e /\ is_reset e = true.
Proof.
  destruct (Toy.run 2 false) as [[[l w'] tr]| |] eqn:E.
  - exists l, w', tr. split; [reflexivity|].
    refine (proj2 (run_episodes_first_and_last_call Toy.torch Toy.env Toy.pol
                     _ _ _ _ _ _ _ _ _ _ _ _ _ _ _ _ E)).
    lia.
  - vm_compute in E. discriminate.
  - vm_compute in E. discriminate.
Defined.


Lemma run_episodes_prefix_witness :
  exists l2 w2 tr2 w1 tr1,
    Toy.run 2 true = Ok (l2, w2, tr2) /\
    Toy.run 1 true = Ok (take 1 l2, w1, tr1) /\ tr1 `prefix_of` tr2.
Proof.
  destruct (Toy.run 2 true) as [[[l2 w2] tr2]| |] eqn:E.
  - destruct (run_episodes_prefix Toy.torch Toy.env Toy.pol 5 1 2
                Toy.gamma Toy.start_obs 4%nat "cpu" "model" "params"
                true false true Toy.start w2 l2 tr2) as (w1 & tr1 & H1 & H2);
      [lia|exact E|].
    exists l2, w2, tr2, w1, tr1. split; [reflexivity|]. split; [exact H1|exact H2].
  - vm_compute in E. discriminate.
  - vm_compute in E. discriminate.
Defined.

Lemma fixed_start_single_identifier_witness :
  exists l w' tr,
    Toy.run 2 false = Ok (l, w', tr) /\
    forall r1 r2, r1 ∈ l -> r2 ∈ l -> r1.2 = r2.2.
Proof.
  destruct (Toy.run 2 false) as [[[l w'] tr]| |] eqn:E.
  - exists l, w', tr. split; [reflexivity|].
    refine (proj2 (fixed_start_single_identifier Toy.torch Toy.env Toy.pol
                     _ _ _ _ _ _ _ _ _ _ _ _ _ _ _ E)).
    intros raw w1 w2. reflexivity.
  - vm_compute in E. discriminate.
  - vm_compute in E. discriminate.
Defined.


Lemma policies_see_latest_observation_witness :
  exists l w' tr,
    Toy.run 2 true = Ok (l, w', tr) /\
    Forall (fresh_followup Toy.torch "cpu") (step_followups tr).
Proof.
  destruct (Toy.run 2 true) as [[[l w'] tr]| |] eqn:E.
  - exists l, w', tr. split; [reflexivity|].
    exact (policies_see_latest_observation Toy.torch Toy.env Toy.pol
             _ _ _ _ _ _ _ _ _ _ _ _ _ _ _ E).
  - vm_compute in E. discriminate.
  - vm_compute in E. discriminate.
Defined.

Lemma process_observation_rejects_marshaled_witness :
  Heap.process_observation Toy.torch 1%positive "cpu" 4%nat
    (<[1%positive := Heap.VEntry <$> Toy.start_obs]> Toy.heap0)
  = Raise TypeError.
Proof.
  apply (process_observation_rejects_marshaled Toy.torch 1%positive "cpu" 4%nat
           _ (Heap.VEntry <$> Toy.start_obs) "0" (AgentObs 4%nat 4%nat));
    reflexivity.
Defined.

Lemma process_observation_not_repeatable_witness :
  exists st1,
    Heap.process_observation Toy.torch 1%positive "cpu" 4%nat Toy.heap0
      = Ok (1%positive, st1) /\
    Heap.process_observation Toy.torch 1%positive "cpu" 4%nat st1
      = Raise TypeError.
Proof.
  destruct (process_observation_not_repeatable Toy.torch 1%positive
              (Toy.obs_of Toy.start) "cpu" 4%nat Toy.heap0)
    as (st1 & H1 & H2).
  - reflexivity.
  - intros H. apply (f_equal (fun m => m !! "0")) in H. vm_compute in H.
    discriminate.
  - exists st1. split; [exact H1|apply H2].
Defined.

Lemma obs_to_torch_in_place_witness :
  exists ins',
    Nested.obs_to_torch Toy.torch ToyMore.numpy 1%positive "cpu"
      ToyMore.outs0 ToyMore.ins0 = Ok (1%positive, ToyMore.outs0, ins') /\
    ins' !! 2%positive =
      Some (Nested.batched Toy.torch ToyMore.numpy "cpu" <$> ToyMore.arrays0) /\
    ins' !! 5%positive = ToyMore.ins0 !! 5%positive.
Proof.
  destruct (obs_to_torch_in_place Toy.torch ToyMore.numpy 1%positive "cpu"
              ToyMore.outs0 ToyMore.ins0 ToyMore.agents)
    as (ins' & Hrun & Hconv & Hframe).
  - reflexivity.
  - intros k1 k2 r H1 H2. unfold ToyMore.agents in *.
    apply lookup_insert_Some in H1 as [[<- <-]|[Hn1 H1]];
      apply lookup_insert_Some in H2 as [[<- H2]|[Hn2 H2]]; try done.
    + apply lookup_singleton_Some in H2 as [_ [=]].
    + apply lookup_singleton_Some in H1 as [_ <-]. discriminate.
    + apply lookup_singleton_Some in H1 as [<- _].
      by apply lookup_singleton_Some in H2 as [<- _].
  - intros k r H. unfold ToyMore.agents in H.
    apply lookup_insert_Some in H as [[_ <-]|[_ H]].
    + by exists ToyMore.arrays0.
    + apply lookup_singleton_Some in H as [_ <-]. by exists ToyMore.arrays1.
  - exists ins'. split; [exact Hrun|]. split.
    + by apply (Hconv "0").
    + apply Hframe. intros k H. unfold ToyMore.agents in H.
      apply lookup_insert_Some in H as [[_ [=]]|[_ H]].
      by apply lookup_singleton_Some in H as [_ [=]].
Defined.

(** The adapters on the concrete stores. *)
Example obs_to_torch_toy :
  match Nested.obs_to_torch Toy.torch ToyMore.numpy 1%positive "cpu"
          ToyMore.outs0 ToyMore.ins0 with
  | Ok (r, _, ins') => Some (r, ins' !! 3%positive ≫= (.!! "obs"))
  | _ => None
  end = Some (1%positive, Some (Nested.LTensor 6%nat)).
Proof. vm_compute. reflexivity. Qed.
